(** * podcast_generator: the turn-taking and interruption engine

    A shallow embedding of [podcast_engine.py] (classes [Character] and
    [Podcast]) and the properties of its arbitration, speaker selection,
    injection handling and transcript bookkeeping.

    Conventions of the embedding.
    - A Python [str] is a [list ascii]; the development covers text whose
      code points are below 256, so that [\s], [str.strip], [str.split]
      and [re.IGNORECASE] are the functions written out below.
    - A Python [int] is a [Z].
    - A function that may raise returns a [res]; [Value] is a normal
      return and [Raise] an exception that no handler of the function
      catches.
    - Everything the engine receives from outside (the model backend, the
      clock, the random generator, the operator's queue) is an explicit
      input. *)

From Stdlib Require Import ZArith QArith Ascii String DecimalString DecimalNat Sorted.
From stdpp Require Import base option list strings gmap.

Local Open Scope Z_scope.

(** ** Text *)

Abbreviation str := (list ascii).

Definition chars (s : string) : str := list_ascii_of_string s.

Definition code (c : ascii) : nat := nat_of_ascii c.

(** Python's notion of white space ([str.isspace], [\s] on [str]
    patterns), on code points below 256. *)
Definition is_space (c : ascii) : bool :=
  let n := code c in
  ((9 <=? n) && (n <=? 13) || (28 <=? n) && (n <=? 32)
   || (n =? 133) || (n =? 160))%nat.

Definition is_upper (c : ascii) : bool :=
  let n := code c in ((65 <=? n) && (n <=? 90))%nat.

Definition is_lower (c : ascii) : bool :=
  let n := code c in ((97 <=? n) && (n <=? 122))%nat.

Definition is_digit (c : ascii) : bool :=
  let n := code c in ((48 <=? n) && (n <=? 57))%nat.

(** The class [[a-zA-Z0-9]]. *)
Definition is_alnum (c : ascii) : bool :=
  is_upper c || is_lower c || is_digit c.

(** [str.lower] on one character of the class [[a-zA-Z0-9]]; other
    characters never reach it in this program. *)
Definition lower (c : ascii) : ascii :=
  if is_upper c then ascii_of_nat (code c + 32) else c.

Definition newline : ascii := ascii_of_nat 10.
Definition dquote : ascii := ascii_of_nat 34.

Fixpoint lstrip (s : str) : str :=
  match s with
  | c :: s' => if is_space c then lstrip s' else s
  | [] => []
  end.

Definition rstrip (s : str) : str := reverse (lstrip (reverse s)).

(** [s.strip()] *)
Definition strip (s : str) : str := rstrip (lstrip s).

(** [s.split()]: the maximal runs of characters that are not white
    space.  [cur] holds the run being read, reversed. *)
Fixpoint split_from (cur : str) (s : str) : list str :=
  match s with
  | [] => match cur with [] => [] | _ => [reverse cur] end
  | c :: s' =>
      if is_space c
      then match cur with
           | [] => split_from [] s'
           | _ => reverse cur :: split_from [] s'
           end
      else split_from (c :: cur) s'
  end.

Definition split (s : str) : list str := split_from [] s.

(** [s] starts with [p], letters compared without case
    ([re.IGNORECASE] when [ci] is set). *)
Definition char_eqb (ci : bool) (a b : ascii) : bool :=
  if ci then bool_decide (lower a = lower b) else bool_decide (a = b).

Fixpoint starts_with (ci : bool) (p s : str) : bool :=
  match p, s with
  | [], _ => true
  | a :: p', b :: s' => char_eqb ci a b && starts_with ci p' s'
  | _ :: _, [] => false
  end.

(** The position of the first occurrence of [p] in [s], as the pair of
    the text before it and the text after it. *)
Fixpoint find_marker (ci : bool) (p s : str) : option (str * str) :=
  if starts_with ci p s then Some ([], drop (length p) s)
  else match s with
       | [] => None
       | c :: s' =>
           match find_marker ci p s' with
           | Some (pre, post) => Some (c :: pre, post)
           | None => None
           end
       end.

Definition NEXT_SPEAKER : str := chars "NEXT_SPEAKER:".

(** ** Exceptions *)

Inductive exn :=
  | TypeError | AttributeError | OverflowError | IndexError | KeyError.

Inductive res (A : Type) :=
  | Value (a : A)
  | Raise (e : exn).
Arguments Value {A} a.
Arguments Raise {A} e.

(** Sequencing: an exception skips what follows.  With this instance
    stdpp's [x ← r; k] is the notation for it. *)
Global Instance res_bind : MBind res := λ A B k r,
  match r with
  | Value a => k a
  | Raise e => Raise e
  end.

(** ** Bids and arbitration *)

Record InterruptionBid := mkBid {
  importance : Z;
  interrupt_after_word : str;
  interruption_text : str;
  interrupter_name : str
}.

Definition INTERRUPTION_THRESHOLD : Z := 6.

(** [max(l, key=key)]: the first element whose key no later element
    exceeds; [None] stands for the [ValueError] on an empty list, which
    [run] rules out by testing the list first. *)
Fixpoint max_from {A} (key : A → Z) (best : A) (l : list A) : A :=
  match l with
  | [] => best
  | x :: l' => max_from key (if key best <? key x then x else best) l'
  end.

Definition py_max {A} (key : A → Z) (l : list A) : option A :=
  match l with
  | [] => None
  | x :: l' => Some (max_from key x l')
  end.

(** [[b for b in all_bids if b and b.importance >= INTERRUPTION_THRESHOLD]] *)
Definition above_threshold (ob : option InterruptionBid)
  : option InterruptionBid :=
  match ob with
  | Some b => if INTERRUPTION_THRESHOLD <=? importance b then Some b else None
  | None => None
  end.

Definition interrupt_bids (all_bids : list (option InterruptionBid))
  : list InterruptionBid :=
  omap above_threshold all_bids.

(** The decision of lines 233-237: the winning bid, if any. *)
Definition winning_bid (all_bids : list (option InterruptionBid))
  : option InterruptionBid :=
  py_max importance (interrupt_bids all_bids).

(** ** Small helpers shared by the regular expressions *)

(** The first alternative that succeeds, in the order in which a
    backtracking matcher tries them. *)
Fixpoint first_some {A B} (f : A → option B) (l : list A) : option B :=
  match l with
  | [] => None
  | a :: l' => match f a with Some b => Some b | None => first_some f l' end
  end.

(** Length of the longest prefix whose characters satisfy [p]. *)
Fixpoint span_len (p : ascii → bool) (s : str) : nat :=
  match s with
  | c :: s' => if p c then S (span_len p s') else O
  | [] => O
  end.

(** The lengths a greedy [x*] tries: longest first. *)
Definition greedy (n : nat) : list nat := reverse (seq 0 (S n)).

(** The lengths a lazy [x*?] tries: shortest first. *)
Definition lazy (n : nat) : list nat := seq 0 (S n).

(** ** Character: the model call and the bid *)

(** What the HTTP call of [_call_ollama] can do. *)
Inductive reply :=
  | Reply200 (response : str)
      (** status 200 and a body whose ["response"] field is this text *)
  | ReplyStatus (status : nat)
      (** any other status *)
  | ReplyFailed.
      (** an exception anywhere inside the [try] block *)

Definition decimal (n : nat) : str :=
  chars (NilEmpty.string_of_uint (Nat.to_uint n)).

(** The substitution of line 73 removes, at the start of the text and
    without regard to case, white space, the persona's name, an optional
    colon or comma, and white space.  The pattern is anchored, so only a
    match at the start is replaced. *)
Definition drop_separator (s : str) : str :=
  match s with
  | c :: s' => if bool_decide (c = ":"%char ∨ c = ","%char) then s' else s
  | [] => []
  end.

Definition drop_name_prefix (name s : str) : str :=
  match first_some
          (λ k, if starts_with true name (drop k s)
                then Some (lstrip (drop_separator (drop (k + length name)%nat s)))
                else None)
          (greedy (span_len is_space s)) with
  | Some rest => rest
  | None => s
  end.

Definition _call_ollama (name : str) (r : reply) : str :=
  match r with
  | Reply200 response => strip (drop_name_prefix name (strip response))
  | ReplyStatus status => chars "[Error: API Error " ++ decimal status ++ chars "]"
  | ReplyFailed => chars "[Error: Connection Failed]"
  end.

(** Values that [json.loads] returns. *)
Local Set Warnings "-register-all".

Inductive pyfloat := FNan | FInf | FFin (q : Q).

Inductive json :=
  | JNull
  | JBool (b : bool)
  | JInt (n : Z)
  | JFloat (f : pyfloat)
  | JStr (s : str)
  | JList (l : list json)
  | JDict (d : list (str * json)).

(** Python truth value of a JSON value. *)
Definition truthy (v : json) : bool :=
  match v with
  | JNull => false
  | JBool b => b
  | JInt n => negb (n =? 0)
  | JFloat (FFin q) => negb (Qeq_bool q 0)
  | JFloat _ => true
  | JStr s => negb (bool_decide (s = []))
  | JList l => match l with [] => false | _ => true end
  | JDict d => match d with [] => false | _ => true end
  end.

(** [d.get(key)] *)
Fixpoint dict_get (d : list (str * json)) (key : str) : option json :=
  match d with
  | [] => None
  | (k, v) :: d' => if bool_decide (k = key) then Some v else dict_get d' key
  end.

(** [re.search(r"\{{.*?\}}", r, re.DOTALL)]: outside an f-string the
    doubled braces are two characters each, so the pattern asks for [{{],
    then as little as possible, then [}}]. *)
Definition match_braces (s : str) : option str :=
  if starts_with false (chars "{{") s
  then match find_marker false (chars "}}") (drop 2 s) with
       | Some (mid, _) => Some (chars "{{" ++ mid ++ chars "}}")
       | None => None
       end
  else None.

Fixpoint search_braces (s : str) : option str :=
  match match_braces s with
  | Some m => Some m
  | None => match s with [] => None | _ :: s' => search_braces s' end
  end.

(** [.replace(...)] of line 102: every single quote becomes a double
    quote. *)
Definition replace_quotes (s : str) : str :=
  map (λ c, if bool_decide (c = "'"%char) then dquote else c) s.

(** [re.sub(r",(\s*[\}\]])", r"\1", js)]: a comma followed by optional
    white space and a closing brace or bracket is removed. *)
Definition closing (s : str) : bool :=
  match lstrip s with
  | c :: _ => bool_decide (c = "}"%char ∨ c = "]"%char)
  | [] => false
  end.

Fixpoint drop_trailing_commas (s : str) : str :=
  match s with
  | [] => []
  | c :: s' =>
      if bool_decide (c = ","%char) && closing s'
      then drop_trailing_commas s'
      else c :: drop_trailing_commas s'
  end.

(** The last substitution of line 102: a bar that is not followed by a
    double quote, a backslash, a slash or one of the letters b f n r t u
    becomes two backslashes. *)
Definition escape_follows (s : str) : bool :=
  match s with
  | c :: _ => bool_decide (c ∈ dquote :: chars "\/bfnrtu")
  | [] => false
  end.

Fixpoint escape_bars (s : str) : str :=
  match s with
  | [] => []
  | c :: s' =>
      if bool_decide (c = "|"%char) && negb (escape_follows s')
      then "\"%char :: "\"%char :: escape_bars s'
      else c :: escape_bars s'
  end.

(** The keyword call of a dataclass constructor: every keyword must be a
    field and every field must be given, else [TypeError]. *)
Inductive arg := AInt (n : Z) | AStr (s : str).

Definition InterruptionBid_fields : list string :=
  ["importance"; "interrupt_after_word"; "interruption_text";
   "interrupter_name"]%string.

Definition kwarg (kw : list (string * arg)) (k : string) : option arg :=
  snd <$> find (λ p, bool_decide (fst p = k)) kw.

Definition InterruptionBid_init (kw : list (string * arg))
  : res InterruptionBid :=
  if forallb (λ p, bool_decide (fst p ∈ InterruptionBid_fields)) kw
  then match kwarg kw "importance", kwarg kw "interrupt_after_word",
             kwarg kw "interruption_text", kwarg kw "interrupter_name" with
       | Some (AInt i), Some (AStr w), Some (AStr t), Some (AStr n) =>
           Value (mkBid i w t n)
       | _, _, _, _ => Raise TypeError
       end
  else Raise TypeError.

Section Character.

(** The two library functions the bid parser relies on: [json.loads]
    ([None] for [JSONDecodeError]) and [int] on a string ([None] for
    [ValueError]). *)
Variable json_loads : str → option json.
Variable int_of_str : str → option Z.

Definition _robust_json_parse (r : str) : option json :=
  match search_braces r with
  | None => None
  | Some m =>
      let js := replace_quotes m in
      let js := drop_trailing_commas js in
      let js := escape_bars js in
      json_loads js
  end.

(** [int(v)]: [Value None] is the [ValueError] that line 114 catches. *)
Definition py_int (v : json) : res (option Z) :=
  match v with
  | JInt n => Value (Some n)
  | JBool b => Value (Some (if b then 1 else 0))
  | JFloat (FFin q) => Value (Some (Z.quot (Qnum q) (Zpos (Qden q))))
  | JFloat FNan => Value None
  | JFloat FInf => Raise OverflowError
  | JStr s => Value (int_of_str s)
  | JNull | JList _ | JDict _ => Raise TypeError
  end.

(** [(v or '').strip()] *)
Definition stripped_field (v : option json) : res str :=
  match v with
  | None => Value []
  | Some v =>
      if truthy v
      then match v with JStr s => Value (strip s) | _ => Raise AttributeError end
      else Value []
  end.

(** Lines 111-114, from the text [r] that the model call returned. *)
Definition bid_of_text (name r : str) : res (option InterruptionBid) :=
  match _robust_json_parse r with
  | None => Value None
  | Some bd =>
      if negb (truthy bd) then Value None
      else match bd with
           | JDict d =>
               i ← py_int (default (JInt 0) (dict_get d (chars "importance")));
               match i with
               | None => Value None
               | Some i =>
                   w ← stripped_field (dict_get d (chars "interrupt_after_word"));
                   t ← stripped_field (dict_get d (chars "interruption_text"));
                   b ← InterruptionBid_init
                         [("importance", AInt i);
                          ("interrupt_after_word", AStr w);
                          ("interrupt_text", AStr t);
                          ("interrupter_name", AStr name)]%string;
                   Value (Some b)
               end
           | _ => Raise AttributeError
           end
  end.

Definition bid_for_interruption (name : str) (r : reply)
  : res (option InterruptionBid) :=
  bid_of_text name (_call_ollama name r).

End Character.

(** [asyncio.gather] on the bid tasks: the list of results in the order of the
    tasks, or the exception of a task that raised. *)
Fixpoint gather {A} (tasks : list (res A)) : res (list A) :=
  match tasks with
  | [] => Value []
  | t :: tasks' => a ← t; l ← gather tasks'; Value (a :: l)
  end.

(** ** The next-speaker directive *)

(** [$] without [re.MULTILINE]: the end of the text, or just before a
    final newline. *)
Definition at_end (s : str) : bool :=
  bool_decide (s = [] ∨ s = [newline]).

(** [\]?$] *)
Definition closes (s : str) : bool :=
  match s with
  | c :: s' => (bool_decide (c = "]"%char) && at_end s') || at_end s
  | [] => true
  end.

Definition not_newline (c : ascii) : bool := negb (bool_decide (c = newline)).

(** [(.*?)\]?$]: the shortest run of characters other than newline after
    which the rest of the pattern matches. *)
Definition capture (s : str) : option str :=
  first_some (λ n, if closes (drop n s) then Some (take n s) else None)
             (lazy (span_len not_newline s)).

(** [\[?(.*?)\]?$]: the bracket is taken when it is there, and given
    back when the match fails with it. *)
Definition after_space (s : str) : option str :=
  first_some capture
    (match s with
     | c :: s' => if bool_decide (c = "["%char) then [s'; s] else [s]
     | [] => [s]
     end).

(** [\s*\[?(.*?)\]?$] *)
Definition match_tail (s : str) : option str :=
  first_some (λ k, after_space (drop k s)) (greedy (span_len is_space s)).

(** The pattern [NEXT_SPEAKER:\s*\[?(.*?)\]?$] tried at the start of [s];
    the result is group 1. *)
Definition match_directive (s : str) : option str :=
  if starts_with true NEXT_SPEAKER s
  then match_tail (drop (length NEXT_SPEAKER) s)
  else None.

(** [re.search(r"NEXT_SPEAKER:\s*\[?(.*?)\]?$", s, re.IGNORECASE)] *)
Fixpoint next_speaker_match (s : str) : option str :=
  match match_directive s with
  | Some g => Some g
  | None => match s with [] => None | _ :: s' => next_speaker_match s' end
  end.

(** [re.sub(r'[^a-zA-Z0-9]', '', s).lower()] *)
Definition normalize (s : str) : str := map lower (filter is_alnum s).

(** [s.split("NEXT_SPEAKER:")[0]] *)
Definition before_marker (s : str) : str :=
  match find_marker false NEXT_SPEAKER s with
  | Some (pre, _) => pre
  | None => s
  end.

(** Line 243: the first marker, matched without regard to case, and
    everything after it are removed ([re.DOTALL]). *)
Definition without_directive (s : str) : str :=
  match find_marker true NEXT_SPEAKER s with
  | Some (pre, _) => pre
  | None => s
  end.

(** [random.choice(l)], the generator's draw being an input. *)
Definition random_choice {A} (draw : nat) (l : list A) : res A :=
  match l !! (draw mod length l)%nat with
  | Some a => Value a
  | None => Raise IndexError
  end.

(** ** Podcast: the session *)

Record Persona := mkPersona {
  name : str;
  personality : str;
  stance : str;
  age : Z;
  gender : str;
  model : str;
  background : str;
  speaker_wav_path : str;
  relationships : list (str * str)
}.

Record Entry := mkEntry {
  timestamp : str;
  speaker : str;
  line : str
}.

Record Analytics := mkAnalytics {
  word_counts : gmap str nat;
  turn_counts : gmap str nat;
  interruption_counts : gmap str nat
}.

(** The fields of the [Podcast] object that [run] reads and writes,
    together with the two local variables of [run] and the contents of
    the transcript log file. *)
Record Podcast := mkPodcast {
  topic : str;
  personas : list Persona;
  num_turns : nat;
  transcript : list Entry;
  conversation_history : list str;
  analytics : Analytics;
  injection_queue : list str;
  log_file : list str;
  line_idx : nat;
  current_speaker_name : str
}.

Definition names (ps : list Persona) : list str := map name ps.

(** [{p.name: 0 for p in self.personas}] *)
Definition zero_counts (ps : list Persona) : gmap str nat :=
  foldl (λ m p, <[name p := O]> m) ∅ ps.

(** The object as [__init__] leaves it. *)
Definition new_podcast (t : str) (ps : list Persona) (n : nat)
    (queue : list str) : Podcast :=
  {| topic := t; personas := ps; num_turns := n;
     transcript := []; conversation_history := [];
     analytics := mkAnalytics (zero_counts ps) (zero_counts ps) (zero_counts ps);
     injection_queue := queue; log_file := [];
     line_idx := O; current_speaker_name := [] |}.

Definition set_analytics (a : Analytics) (st : Podcast) : Podcast :=
  {| topic := topic st; personas := personas st; num_turns := num_turns st;
     transcript := transcript st;
     conversation_history := conversation_history st;
     analytics := a;
     injection_queue := injection_queue st; log_file := log_file st;
     line_idx := line_idx st;
     current_speaker_name := current_speaker_name st |}.

Definition set_queue (q : list str) (st : Podcast) : Podcast :=
  {| topic := topic st; personas := personas st; num_turns := num_turns st;
     transcript := transcript st;
     conversation_history := conversation_history st;
     analytics := analytics st;
     injection_queue := q; log_file := log_file st;
     line_idx := line_idx st;
     current_speaker_name := current_speaker_name st |}.

Definition set_speaker (s : str) (st : Podcast) : Podcast :=
  {| topic := topic st; personas := personas st; num_turns := num_turns st;
     transcript := transcript st;
     conversation_history := conversation_history st;
     analytics := analytics st;
     injection_queue := injection_queue st; log_file := log_file st;
     line_idx := line_idx st;
     current_speaker_name := s |}.

Definition next_line (st : Podcast) : Podcast :=
  {| topic := topic st; personas := personas st; num_turns := num_turns st;
     transcript := transcript st;
     conversation_history := conversation_history st;
     analytics := analytics st;
     injection_queue := injection_queue st; log_file := log_file st;
     line_idx := S (line_idx st);
     current_speaker_name := current_speaker_name st |}.

Definition Moderator : str := chars "Moderator".
Definition Director : str := chars "Director".

(** [_update_analytics] *)
Definition _update_analytics (sp ln : str) (st : Podcast) : Podcast :=
  let a := analytics st in
  let wc := <[sp := (default O (word_counts a !! sp) + length (split ln))%nat]>
              (word_counts a) in
  let tc := if bool_decide (sp ≠ Moderator ∧ sp ≠ Director)
            then <[sp := (default O (turn_counts a !! sp) + 1)%nat]> (turn_counts a)
            else turn_counts a in
  set_analytics (mkAnalytics wc tc (interruption_counts a)) st.

Section Session.

(** [datetime.now().strftime("%H:%M:%S")] at the moment the entry
    number [k] of the transcript is written. *)
Variable now : nat → str.

(** [_add_to_transcript]: the entry, the history line and the log line.
    The audio task it may start touches none of the fields modelled
    here. *)
Definition _add_to_transcript (sp ln : str) (line_index : nat)
    (st : Podcast) : Podcast :=
  let ts := now (length (transcript st)) in
  {| topic := topic st; personas := personas st; num_turns := num_turns st;
     transcript := transcript st ++ [mkEntry ts sp ln];
     conversation_history :=
       conversation_history st ++ [sp ++ chars ": " ++ ln];
     analytics := analytics st;
     injection_queue := injection_queue st;
     log_file := log_file st
       ++ [chars "[" ++ ts ++ chars "] " ++ sp ++ chars ": " ++ ln ++ [newline]];
     line_idx := line_idx st;
     current_speaker_name := current_speaker_name st |}.

(** An append as [run] writes it:
    [self._add_to_transcript(sp, ln, line_idx); line_idx += 1]. *)
Definition say (sp ln : str) (st : Podcast) : Podcast :=
  next_line (_add_to_transcript sp ln (line_idx st) st).

(** Lines 200-202. *)
Definition welcome (st : Podcast) : str :=
  chars "Welcome! Today's topic is: " ++ topic st ++ chars ".".

Definition start (st : Podcast) : res Podcast :=
  let st := say Moderator (welcome st) st in
  match personas st with
  | p :: _ => Value (set_speaker (name p) st)
  | [] => Raise IndexError
  end.

(** Lines 206-213: the [while] loop empties the queue, every line an
    entry of "Director". *)
Fixpoint drain (q : list str) (st : Podcast) : Podcast :=
  match q with
  | [] => st
  | text :: q' => drain q' (say Director text (set_queue q' st))
  end.

Definition drain_injections (st : Podcast) : Podcast :=
  drain (injection_queue st) st.

(** Lines 217-226: the [if] takes one line, an entry of "Moderator". *)
Definition injection_check (st : Podcast) : Podcast :=
  match injection_queue st with
  | text :: q' => say Moderator text (set_queue q' st)
  | [] => st
  end.

(** What one turn receives from outside. *)
Record TurnInput := mkInput {
  response : str;
    (** the text [generate_full_response] returns for the speaker *)
  bid_of : str → res (option InterruptionBid);
    (** the outcome of [bid_for_interruption] for the persona named *)
  draw : nat;
    (** the random generator's draw, should the fallback need it *)
  arrivals : list str
    (** lines the operator queues while the calls of the turn are awaited *)
}.

(** [persona_map]: built in roster order, so of two personas with the
    same normalized name the later one stays. *)
Definition persona_map (ps : list Persona) : gmap str str :=
  foldl (λ m p, <[normalize (name p) := name p]> m) ∅ ps.

Definition others (st : Podcast) : list Persona :=
  filter (λ p, name p ≠ current_speaker_name st) (personas st).

(** Lines 231-232: one bid call for every persona other than the
    speaker, in roster order. *)
Definition bid_tasks (i : TurnInput) (st : Podcast)
  : list (res (option InterruptionBid)) :=
  map (λ p, bid_of i (name p)) (others st).

(** Lines 246-255: the speaker of the next turn. *)
Definition select_next_speaker (potential_response : str) (d : nat)
    (st : Podcast) : res str :=
  let fallback := random_choice d (names (others st)) in
  match next_speaker_match potential_response with
  | Some g =>
      let candidate := strip g in
      let normalized_candidate := normalize candidate in
      match persona_map (personas st) !! normalized_candidate with
      | Some n =>
          if bool_decide (n ≠ current_speaker_name st) then Value n
          else fallback
      | None => fallback
      end
  | None => fallback
  end.

(** Lines 236-255: what is written once the bids are in. *)
Definition commit (potential_response : str)
    (all_bids : list (option InterruptionBid)) (d : nat) (st : Podcast)
  : res Podcast :=
  match winning_bid all_bids with
  | Some wb =>
      let st := say (current_speaker_name st)
                    (strip (before_marker potential_response)) st in
      let st := say (interrupter_name wb) (interruption_text wb) st in
      Value (set_speaker (interrupter_name wb) st)
  | None =>
      let cleaned_response := strip (without_directive potential_response) in
      let st := say (current_speaker_name st) cleaned_response st in
      n ← select_next_speaker potential_response d st;
      Value (set_speaker n st)
  end.

(** Lines 228-255.  [self.characters] has the names of the roster as
    its keys. *)
Definition turn_body (i : TurnInput) (st : Podcast) : res Podcast :=
  if bool_decide (current_speaker_name st ∈ names (personas st))
  then
    all_bids ← gather (bid_tasks i st);
    commit (response i) all_bids (draw i)
           (set_queue (injection_queue st ++ arrivals i) st)
  else Raise KeyError.

(** One pass through lines 217-255. *)
Definition inner_turn (i : TurnInput) (st : Podcast) : res Podcast :=
  turn_body i (injection_check st).

(** One pass through lines 206-255, the body of the loop of line 204.
    Line 215 repeats the loop header and has no block of its own: the
    statements after it stand at the depth of the [while] of line 206
    and are read as following it. *)
Definition turn (i : TurnInput) (st : Podcast) : res Podcast :=
  inner_turn i (drain_injections st).

Fixpoint turns (inputs : list TurnInput) (st : Podcast) : res Podcast :=
  match inputs with
  | [] => Value st
  | i :: inputs' => st' ← turn i st; turns inputs' st'
  end.

(** [run], up to the end of the loop; [inputs k] is what turn [k]
    receives. *)
Definition run (inputs : nat → TurnInput) (st : Podcast) : res Podcast :=
  st ← start st;
  turns (map inputs (seq 0 (num_turns st))) st.

End Session.

(** The input of a turn when the texts come from the model calls:
    [generate_full_response] returns what [_call_ollama] makes of the
    reply to the speaker's prompt, and every bid is the result of
    [bid_for_interruption] on the reply to the bidder's prompt. *)
Definition model_input (json_loads : str → option json)
    (int_of_str : str → option Z) (speaker_name : str)
    (response_reply : reply) (bid_reply : str → reply)
    (d : nat) (queued : list str) : TurnInput :=
  mkInput (_call_ollama speaker_name response_reply)
          (λ n, bid_for_interruption json_loads int_of_str n (bid_reply n))
          d queued.

(** ** Vocabulary of the statements *)

(** The model call did not succeed: a status other than 200, or an
    exception inside the [try] block. *)
Definition failed (r : reply) : Prop :=
  match r with
  | Reply200 _ => False
  | ReplyStatus _ | ReplyFailed => True
  end.

(** A JSON object as the prompt of line 109 asks for it, with the double
    quotes of JSON. *)
Definition bid_json : str :=
  replace_quotes
    (chars "{'importance': 8, 'interrupt_after_word': 'tech', 'interruption_text': 'Wait!'}").


(** Sample sessions. *)
Definition persona (n : string) : Persona :=
  mkPersona (chars n) [] [] 30 [] (chars "llama3:8b") [] [] [].

Definition clock : nat → str := λ _, chars "12:00:00".

Definition no_bids : str → res (option InterruptionBid) := λ _, Value None.

(** Roster A, B, C with B speaking; A bids 8 and C bids 9. *)
Definition abc_state : Podcast :=
  set_speaker (chars "B")
    (new_podcast (chars "AI") [persona "A"; persona "B"; persona "C"] 3 []).

Definition abc_bids : str → res (option InterruptionBid) := λ n,
  if bool_decide (n = chars "A")
  then Value (Some (mkBid 8 (chars "think") (chars "Hold on!") (chars "A")))
  else if bool_decide (n = chars "C")
  then Value (Some (mkBid 9 (chars "think") (chars "Wait!") (chars "C")))
  else Value None.

Definition abc_input : TurnInput :=
  mkInput (chars "I think so. NEXT_SPEAKER: [A]") abc_bids 0 [].

(** Roster Alice, Bob, Carol with Alice speaking and one line queued by
    the operator; nobody bids. *)
Definition queued_state : Podcast :=
  set_speaker (chars "Alice")
    (new_podcast (chars "AI")
       [persona "Alice"; persona "Bob"; persona "Carol"] 1
       [chars "Stay on topic"]).

Definition quiet_input : TurnInput :=
  mkInput (chars "I agree. NEXT_SPEAKER: [Bob]") no_bids 0 [].

(** The entries the [while] loop of lines 206-213 writes for the queued
    lines [q] when the transcript has [n] entries. *)
Definition director_entries (now : nat → str) (n : nat) (q : list str)
  : list Entry :=
  imap (λ k text, mkEntry (now (n + k)%nat) Director text) q.


(** The statement of the specification on the entries of a turn: one
    without an interruption, two with one. *)
Definition one_or_two_entries
    (step : TurnInput → Podcast → res Podcast) : Prop :=
  ∀ i st st' all_bids,
    gather (bid_tasks i st) = Value all_bids →
    step i st = Value st' →
    length (transcript st') =
      (length (transcript st)
       + match winning_bid all_bids with Some _ => 2 | None => 1 end)%nat.


(** The persona a response nominates, when its directive is found and
    names a persona other than the speaker. *)
Definition nomination (resp : str) (st : Podcast) : option str :=
  match next_speaker_match resp with
  | Some g =>
      match persona_map (personas st) !! normalize (strip g) with
      | Some n => if bool_decide (n ≠ current_speaker_name st) then Some n else None
      | None => None
      end
  | None => None
  end.


(** Roster Alice, Bob, Carol with Alice speaking. *)
Definition alice_state : Podcast :=
  set_speaker (chars "Alice")
    (new_podcast (chars "AI")
       [persona "Alice"; persona "Bob"; persona "Carol"] 3 []).


(** ** Text for speech *)

(** Position of the first and of the last occurrence of [c] in [s]. *)
Fixpoint index_first (c : ascii) (s : str) : option nat :=
  match s with
  | [] => None
  | a :: s' => if bool_decide (a = c) then Some O else S <$> index_first c s'
  end.

Fixpoint index_last (c : ascii) (s : str) : option nat :=
  match s with
  | [] => None
  | a :: s' =>
      match index_last c s' with
      | Some k => Some (S k)
      | None => if bool_decide (a = c) then Some O else None
      end
  end.

(** The text up to the next newline, which is as far as a dot of a
    pattern reaches. *)
Definition line_of (s : str) : str := take (span_len not_newline s) s.

(** The substitutions of lines 34 and 35 (and 10 and 12 of the TTS
    script): an opening character, any characters of the same line, a
    closing character, replaced by nothing.  The greedy pattern runs to
    the last closing character of the line, the lazy one to the first.
    [skip] counts the characters of a match still to be dropped. *)
Fixpoint remove_spans (greedy_dots : bool) (opening closing : ascii)
    (skip : nat) (s : str) : str :=
  match s with
  | [] => []
  | a :: s' =>
      match skip with
      | S k => remove_spans greedy_dots opening closing k s'
      | O =>
          if bool_decide (a = opening)
          then match (if greedy_dots then index_last else index_first)
                       closing (line_of s') with
               | Some k => remove_spans greedy_dots opening closing (S k) s'
               | None => a :: remove_spans greedy_dots opening closing O s'
               end
          else a :: remove_spans greedy_dots opening closing O s'
      end
  end.

(** [text.replace('...', '.')]: occurrences found from the left, without
    overlap. *)
Fixpoint replace_ellipses (skip : nat) (s : str) : str :=
  match s with
  | [] => []
  | a :: s' =>
      match skip with
      | S k => replace_ellipses k s'
      | O =>
          if starts_with false (chars "...") s
          then "."%char :: replace_ellipses 2 s'
          else a :: replace_ellipses O s'
      end
  end.

(** [sep.join(words)] *)
Fixpoint join (sep : str) (words : list str) : str :=
  match words with
  | [] => []
  | w :: words' =>
      match words' with
      | [] => w
      | _ :: _ => w ++ sep ++ join sep words'
      end
  end.

(** The characters that the class of line 38 keeps: letters, digits,
    white space and the marks [. , ! ? -]. *)
Definition speakable (c : ascii) : bool :=
  is_alnum c || is_space c || bool_decide (c ∈ chars ".,!?-").

(** [clean_text_for_tts] of the engine ([greedy_parens] set) and
    [clean_text] of the TTS script (not set): they differ in the pattern
    for parenthetical remarks only. *)
Definition clean_with (greedy_parens : bool) (text : str) : str :=
  let text := remove_spans greedy_parens "("%char ")"%char O text in
  let text := remove_spans false "["%char "]"%char O text in
  let text := replace_ellipses O text in
  let text := join (chars " ") (split text) in
  let text := filter speakable text in
  strip text.

Definition clean_text_for_tts (text : str) : str := clean_with true text.
Definition clean_text (text : str) : str := clean_with false text.

(** ** Audio requests and the list of clips *)

Definition TEMP_AUDIO_DIR : str := chars "/tmp/podcast_audio".

(** [os.path.join(a, b)] on POSIX. *)
Definition path_join (a b : str) : str :=
  if starts_with false (chars "/") b then b
  else if bool_decide (a = []) || bool_decide (last a = Some "/"%char)
       then a ++ b
       else a ++ chars "/" ++ b.

(** The file name [run] passes for the entry written with index [k]. *)
Definition audio_filename (k : nat) : str :=
  chars "line_" ++ decimal k ++ chars ".wav".

Section Audio.

(** [os.path.exists], the home directory and [os.path.abspath]. *)
Variable path_exists : str → bool.
Variable home : str.
Variable abspath : str → str.

(** [_load_speaker_wavs], from the empty dictionary of [__init__]. *)
Definition _load_speaker_wavs (ps : list Persona) : gmap str str :=
  foldl (λ wavs p,
           if negb (bool_decide (speaker_wav_path p = []))
              && path_exists (speaker_wav_path p)
           then <[name p := speaker_wav_path p]> wavs
           else wavs)
        ∅ ps.

(** [_generate_audio_for_line], up to the process it would start: the
    command line, or [None] when the line is skipped. *)
Definition _generate_audio_for_line (speaker_wavs : gmap str str)
    (line_text sp output_filename : str) : option (list str) :=
  match speaker_wavs !! sp with
  | None => None
  | Some wav_path =>
      if bool_decide (wav_path = []) then None
      else
        let cleaned_text := clean_text_for_tts line_text in
        if bool_decide (cleaned_text = []) then None
        else
          let tts_executable := path_join home (chars "podcast_env/bin/tts") in
          let output_path := path_join TEMP_AUDIO_DIR output_filename in
          Some [tts_executable; chars "--text"; cleaned_text;
                chars "--model_name";
                chars "tts_models/multilingual/multi-dataset/xtts_v2";
                chars "--speaker_wav"; wav_path;
                chars "--language_idx"; chars "en";
                chars "--out_path"; output_path]
  end.




End Audio.

(** ** The prompt of a response *)




(** ** Renderings of an entry *)



(** A sequence of calls of [_update_analytics]. *)
Definition update_all (calls : list (str * str)) (st : Podcast) : Podcast :=
  foldl (λ st c, _update_analytics (fst c) (snd c) st) st calls.

(** The words of the lines that [sp] speaks in [calls]. *)
Definition words_of (sp : str) (calls : list (str * str)) : nat :=
  sum_list (map (λ c, length (split (snd c)))
                (filter (λ c, fst c = sp) calls)).

Definition lines_of (sp : str) (calls : list (str * str)) : nat :=
  length (filter (λ c, fst c = sp) calls).



(** [json.loads] follows the grammar of JSON in this: a text that opens
    with two braces is no JSON text. *)
Definition rejects_doubled_braces (json_loads : str → option json) : Prop :=
  ∀ s, json_loads (chars "{{" ++ s) = None.

(** A [json.loads] that knows the empty object only. *)
Definition json_loads_empty_object (s : str) : option json :=
  if bool_decide (s = chars "{}") then Some (JDict []) else None.




(** ** The TTS script *)

Definition TTS_TEMP_DIR : str := chars "/tmp/tts_audio".

(** [not v] for what [dict.get] returns. *)
Definition falsy (v : option json) : bool :=
  match v with
  | Some v => negb (truthy v)
  | None => true
  end.

(** [speaker == 'Moderator'] *)
Definition is_moderator (v : option json) : bool :=
  match v with
  | Some (JStr s) => bool_decide (s = chars "Moderator")
  | _ => false
  end.

(** What [for i, entry in enumerate(transcript)] goes through, for
    whatever [json.load] returned: the items of a list, the keys of an
    object, the characters of a string; nothing else can be iterated. *)
Definition tts_entries (transcript : json) : res (list json) :=
  match transcript with
  | JList l => Value l
  | JDict d => Value (map (λ kv, JStr (fst kv)) d)
  | JStr s => Value (map (λ c, JStr [c]) s)
  | JNull | JBool _ | JInt _ | JFloat _ => Raise TypeError
  end.

Section TtsScript.

(** [generate_speech_xtts]: whether the synthesiser wrote the file. *)
Variable generate_speech_xtts : str → str → str → bool.

(** The body of the loop of lines 108-124 for the entry at index [i]:
    the audio file added to the list, if any. *)
Definition tts_line (speaker_wavs : gmap str str) (i : nat) (entry : json)
  : res (option str) :=
  match entry with
  | JDict d =>
      let sp := dict_get d (chars "speaker") in
      let ln := dict_get d (chars "line") in
      if falsy sp || falsy ln || is_moderator sp
      then Value None
      else
        match sp with
        | Some (JStr s) =>
            match speaker_wavs !! s with
            | Some speaker_wav_path =>
                if bool_decide (speaker_wav_path = []) then Value None
                else
                  let output_wav_file :=
                    path_join TTS_TEMP_DIR (audio_filename i) in
                  match ln with
                  | Some (JStr l) =>
                      let cleaned_line := clean_text l in
                      if negb (bool_decide (cleaned_line = []))
                         && generate_speech_xtts cleaned_line output_wav_file
                              speaker_wav_path
                      then Value (Some output_wav_file)
                      else Value None
                  | _ => Raise TypeError
                  end
            | None => Value None
            end
        | Some (JList _) | Some (JDict _) => Raise TypeError
        | _ => Value None
        end
  | _ => Raise AttributeError
  end.

Fixpoint tts_loop (speaker_wavs : gmap str str) (i : nat)
    (entries : list json) : res (list str) :=
  match entries with
  | [] => Value []
  | entry :: rest =>
      f ← tts_line speaker_wavs i entry;
      fs ← tts_loop speaker_wavs (S i) rest;
      Value (match f with Some file => file :: fs | None => fs end)
  end.

(** [audio_files] at the end of the loop. *)
Definition tts_audio_files (speaker_wavs : gmap str str) (transcript : json)
  : res (list str) :=
  entries ← tts_entries transcript;
  tts_loop speaker_wavs O entries.

End TtsScript.

(** An entry as the engine dumps it with [json.dump] and the script
    reads it back. *)
Definition entry_json (e : Entry) : json :=
  JDict [(chars "timestamp", JStr (timestamp e));
         (chars "speaker", JStr (speaker e));
         (chars "line", JStr (line e))].

(** * Properties *)

(** ** The embedding on sample texts *)

Example directive_in_brackets :
  next_speaker_match (chars "I agree. NEXT_SPEAKER: [Bob]") = Some (chars "Bob").
Proof. vm_compute. reflexivity. Qed.

Example directive_in_lower_case_on_its_own_line :
  next_speaker_match (chars "I agree." ++ [newline] ++ chars "next_speaker:   Bob")
  = Some (chars "Bob").
Proof. vm_compute. reflexivity. Qed.

Example directive_followed_by_a_line :
  next_speaker_match (chars "NEXT_SPEAKER: Bob" ++ [newline] ++ chars "more") = None.
Proof. vm_compute. reflexivity. Qed.

Example directive_with_a_second_marker :
  next_speaker_match (chars "NEXT_SPEAKER: A NEXT_SPEAKER: [B]")
  = Some (chars "A NEXT_SPEAKER: [B").
Proof. vm_compute. reflexivity. Qed.

Example directive_with_unbalanced_bracket :
  next_speaker_match (chars "NEXT_SPEAKER: [[Bob]") = Some (chars "[Bob").
Proof. vm_compute. reflexivity. Qed.

Example braces_single : search_braces (chars "x {'importance': 8} y") = None.
Proof. vm_compute. reflexivity. Qed.

Example braces_doubled :
  search_braces (chars "x {{'importance': 8,}} y") = Some (chars "{{'importance': 8,}}").
Proof. vm_compute. reflexivity. Qed.

Example strip_and_split :
  strip (chars "  hi there  ") = chars "hi there" ∧
  split (chars "  hi   there you ") = [chars "hi"; chars "there"; chars "you"].
Proof. split; vm_compute; reflexivity. Qed.

Example cleaned_response_without_case :
  without_directive (chars "Well. Next_Speaker: Bob") = chars "Well. " ∧
  before_marker (chars "Well. Next_Speaker: Bob") = chars "Well. Next_Speaker: Bob".
Proof. split; vm_compute; reflexivity. Qed.

Example first_of_equal_bids_wins :
  winning_bid
    [Some (mkBid 8 [] (chars "a") (chars "A")); None;
     Some (mkBid 9 [] (chars "c") (chars "C"));
     Some (mkBid 9 [] (chars "d") (chars "D"))]
  = Some (mkBid 9 [] (chars "c") (chars "C")).
Proof. vm_compute. reflexivity. Qed.

(** ** Arbitration *)

Section Arbitration.

Context {A : Type} (key : A → Z).

(** [max_from] keeps [best] unless a later element has a strictly
    larger key, and then returns the first element with the largest
    key. *)
Lemma max_from_first_max (l : list A) : ∀ best,
  (max_from key best l = best ∧ ∀ x, x ∈ l → key x ≤ key best) ∨
  (∃ l1 l2, l = l1 ++ max_from key best l :: l2 ∧
     key best < key (max_from key best l) ∧
     (∀ x, x ∈ l1 → key x < key (max_from key best l)) ∧
     (∀ x, x ∈ l2 → key x ≤ key (max_from key best l))).
Proof.
  induction l as [|y l IH]; intros best; simpl.
  - left. split; [done|]. intros x Hx. by apply elem_of_nil in Hx.
  - destruct (Z.ltb_spec (key best) (key y)) as [Hlt|Hge].
    + right. destruct (IH y) as [[Heq Hall]|(l1 & l2 & Hl & Hk & H1 & H2)].
      * exists [], l. rewrite Heq. simpl. repeat split; try done.
        intros x Hx. by apply elem_of_nil in Hx.
      * exists (y :: l1), l2. rewrite Hl at 1. repeat split; try done.
        -- lia.
        -- intros x Hx. apply elem_of_cons in Hx as [->|Hx]; auto.
    + destruct (IH best) as [[Heq Hall]|(l1 & l2 & Hl & Hk & H1 & H2)].
      * left. split; [done|]. intros x Hx.
        apply elem_of_cons in Hx as [->|Hx]; auto.
      * right. exists (y :: l1), l2. rewrite Hl at 1. repeat split; try done.
        intros x Hx. apply elem_of_cons in Hx as [->|Hx]; [lia|auto].
Qed.

Lemma py_max_first_max (l : list A) (w : A) :
  py_max key l = Some w →
  ∃ l1 l2, l = l1 ++ w :: l2 ∧
    (∀ x, x ∈ l1 → key x < key w) ∧ (∀ x, x ∈ l2 → key x ≤ key w).
Proof.
  destruct l as [|y l]; simpl; [done|]. intros [= <-].
  destruct (max_from_first_max l y) as [[Heq Hall]|(l1 & l2 & Hl & Hk & H1 & H2)].
  - exists [], l. rewrite Heq. repeat split; try done.
    intros x Hx. by apply elem_of_nil in Hx.
  - exists (y :: l1), l2. rewrite Hl at 1. repeat split; try done.
    intros x Hx. apply elem_of_cons in Hx as [->|Hx]; auto.
Qed.

End Arbitration.

Lemma above_threshold_Some ob b :
  above_threshold ob = Some b ↔ ob = Some b ∧ INTERRUPTION_THRESHOLD ≤ importance b.
Proof.
  unfold above_threshold. destruct ob as [b'|]; [|split; [done|by intros [? _]]].
  destruct (Z.leb_spec INTERRUPTION_THRESHOLD (importance b')) as [Hle|Hlt].
  - split; [by intros [= ->]|by intros [[= ->] _]].
  - split; [done|]. intros [[= ->] Hle]. lia.
Qed.

(** A split of the filtered list comes from a split of the list. *)
Lemma omap_split {A B} (f : A → option B) (l : list A) : ∀ l1 y l2,
  omap f l = l1 ++ y :: l2 →
  ∃ k1 x k2, l = k1 ++ x :: k2 ∧ omap f k1 = l1 ∧ f x = Some y ∧ omap f k2 = l2.
Proof.
  induction l as [|a l IH]; intros l1 y l2; simpl.
  - by destruct l1.
  - destruct (f a) as [b|] eqn:Hfa.
    + destruct l1 as [|b1 l1]; simpl; intros [= -> Hrest].
      * exists [], a, l. by rewrite Hfa.
      * destruct (IH _ _ _ Hrest) as (k1 & x & k2 & -> & <- & Hx & <-).
        exists (a :: k1), x, k2. simpl. by rewrite Hfa.
    + intros Hrest.
      destruct (IH _ _ _ Hrest) as (k1 & x & k2 & -> & <- & Hx & <-).
      exists (a :: k1), x, k2. simpl. by rewrite Hfa.
Qed.

Lemma elem_of_interrupt_bids all_bids b :
  b ∈ interrupt_bids all_bids ↔
  Some b ∈ all_bids ∧ INTERRUPTION_THRESHOLD ≤ importance b.
Proof.
  unfold interrupt_bids. rewrite list_elem_of_omap. split.
  - intros (ob & Hin & Hob). apply above_threshold_Some in Hob as [-> ?]. done.
  - intros [Hin Hle]. exists (Some b). split; [done|].
    by apply above_threshold_Some.
Qed.

(** C1.  An interruption occurs exactly when some collected bid has
    importance at least the threshold 6; the winner is then a collected
    bid that every bid requested before it is strictly below and every
    bid requested after it is at most equal to: a bid of maximal
    importance, and the first of those in fan-out order. *)
Theorem interruption_iff_threshold_winner_first_max
    (all_bids : list (option InterruptionBid)) :
  (is_Some (winning_bid all_bids) ↔
     ∃ b, Some b ∈ all_bids ∧ 6 ≤ importance b) ∧
  (∀ w, winning_bid all_bids = Some w →
     6 ≤ importance w ∧
     ∃ before after, all_bids = before ++ Some w :: after ∧
       (∀ b, Some b ∈ before → importance b < importance w) ∧
       (∀ b, Some b ∈ after → importance b ≤ importance w)).
Proof.
  assert (Hwin : ∀ w, winning_bid all_bids = Some w →
     6 ≤ importance w ∧
     ∃ before after, all_bids = before ++ Some w :: after ∧
       (∀ b, Some b ∈ before → importance b < importance w) ∧
       (∀ b, Some b ∈ after → importance b ≤ importance w)).
  { intros w Hw. apply py_max_first_max in Hw as (l1 & l2 & Hl & H1 & H2).
    apply omap_split in Hl as (k1 & x & k2 & Hall & Hk1 & Hx & Hk2).
    apply above_threshold_Some in Hx as [-> Hw]. split; [done|].
    exists k1, k2. split; [done|]. split; intros b Hb.
    - destruct (Z.le_gt_cases 6 (importance b)) as [Hb6|Hb6].
      + apply H1. rewrite <- Hk1. by apply elem_of_interrupt_bids.
      + unfold INTERRUPTION_THRESHOLD in Hw. lia.
    - destruct (Z.le_gt_cases 6 (importance b)) as [Hb6|Hb6].
      + apply H2. rewrite <- Hk2. by apply elem_of_interrupt_bids.
      + unfold INTERRUPTION_THRESHOLD in Hw. lia. }
  split; [|done]. split.
  - intros [w Hw]. destruct (Hwin w Hw) as (Hw6 & before & after & -> & _).
    exists w. split; [|done]. rewrite elem_of_app, elem_of_cons. auto.
  - intros (b & Hin & Hb).
    assert (Hb' : b ∈ interrupt_bids all_bids) by by apply elem_of_interrupt_bids.
    unfold winning_bid. destruct (interrupt_bids all_bids); [|by eexists].
    by apply elem_of_nil in Hb'.
Qed.

(** ** The bid call *)


Lemma gather_length {A} (l : list (res A)) : ∀ bs,
  gather l = Value bs → length bs = length l.
Proof.
  induction l as [|t l IH]; simpl; intros bs.
  - by intros [= <-].
  - destruct t as [x|e]; simpl; [|done].
    destruct (gather l) as [bs'|e]; simpl; [|done].
    intros [= <-]. simpl. f_equal. by apply IH.
Qed.




(** The constructor call of line 113 names a field [interrupt_text] that
    the dataclass does not have. *)
Lemma InterruptionBid_init_line_113 (i : Z) (w t n : str) :
  InterruptionBid_init
    [("importance", AInt i); ("interrupt_after_word", AStr w);
     ("interrupt_text", AStr t); ("interrupter_name", AStr n)]%string
  = Raise TypeError.
Proof. vm_compute. reflexivity. Qed.

Section BidCall.

Variable json_loads : str → option json.
Variable int_of_str : str → option Z.

Abbreviation bid := (λ t : str * reply,
  bid_for_interruption json_loads int_of_str (fst t) (snd t)).

Lemma unparsed_text_is_no_bid (name r : str) :
  _robust_json_parse json_loads r = None →
  bid_of_text json_loads int_of_str name r = Value None.
Proof. unfold bid_of_text. by intros ->. Qed.

(** Whatever the two library functions do, the bid call never returns
    a bid: the pattern needs doubled braces, and the constructor is
    called with a keyword that is not a field. *)
Lemma bid_of_text_never_bids (name r : str) (b : InterruptionBid) :
  bid_of_text json_loads int_of_str name r ≠ Value (Some b).
Proof.
  unfold bid_of_text.
  destruct (_robust_json_parse json_loads r) as [bd|]; [|done].
  destruct (truthy bd); simpl; [|done].
  destruct bd as [| | | | | |d]; try done.
  destruct (py_int int_of_str _) as [[i|]|e]; simpl; try done.
  destruct (stripped_field _) as [t|e]; simpl;
    destruct (stripped_field _) as [w|e']; simpl; done.
Qed.

(** With the bids coming from [bid_for_interruption], the gathered list
    holds no bid at all, and no interruption wins. *)
Lemma gathered_bids_are_no_bids (tasks : list (str * reply)) : ∀ all_bids,
  gather (map bid tasks) = Value all_bids →
  Forall (λ ob, ob = None) all_bids ∧ winning_bid all_bids = None.
Proof.
  induction tasks as [|[n r] tasks IH]; simpl; intros all_bids.
  - by intros [= <-].
  - destruct (bid_for_interruption json_loads int_of_str n r) as [ob|e] eqn:Hb;
      simpl; [|done].
    destruct (gather (map bid tasks)) as [bs|e]; simpl; [|done].
    intros [= <-]. destruct (IH _ eq_refl) as [Hall Hwin].
    destruct ob as [b|]; [by apply bid_of_text_never_bids in Hb|].
    split; [by constructor|]. done.
Qed.


End BidCall.


(** C4.  On the JSON object that the prompt asks for, with the fields
    importance, interrupt_after_word and interruption_text, the bid
    parser returns no bid, whatever [json.loads] and [int] do: the
    pattern of [_robust_json_parse] finds nothing in a text whose braces
    are not doubled. *)
Theorem bid_json_yields_no_bid
    (json_loads : str → option json) (int_of_str : str → option Z)
    (name : str) :
  search_braces bid_json = None ∧
  bid_of_text json_loads int_of_str name bid_json = Value None.
Proof.
  assert (H : search_braces bid_json = None) by (vm_compute; reflexivity).
  split; [done|]. apply unparsed_text_is_no_bid.
  unfold _robust_json_parse. by rewrite H.
Qed.

(** ** The marker *)






(** ** Appending to the transcript *)

Section Appending.

Variable now : nat → str.

Lemma say_transcript sp ln st :
  transcript (say now sp ln st) =
  transcript st ++ [mkEntry (now (length (transcript st))) sp ln].
Proof. reflexivity. Qed.

Lemma say_history sp ln st :
  conversation_history (say now sp ln st) =
  conversation_history st ++ [sp ++ chars ": " ++ ln].
Proof. reflexivity. Qed.

Lemma say_line_idx sp ln st : line_idx (say now sp ln st) = S (line_idx st).
Proof. reflexivity. Qed.

End Appending.

(** [_update_analytics] itself counts as intended: the words of the
    line for every speaker, and a turn for every speaker but the two
    reserved roles. *)
Lemma _update_analytics_counts (sp ln : str) (st : Podcast) :
  word_counts (analytics (_update_analytics sp ln st)) !! sp =
    Some (default O (word_counts (analytics st) !! sp) + length (split ln))%nat ∧
  turn_counts (analytics (_update_analytics sp ln st)) !! sp =
    if bool_decide (sp ≠ Moderator ∧ sp ≠ Director)
    then Some (default O (turn_counts (analytics st) !! sp) + 1)%nat
    else turn_counts (analytics st) !! sp.
Proof.
  unfold _update_analytics. simpl. split; [apply lookup_insert_eq|].
  case_bool_decide; [apply lookup_insert_eq|done].
Qed.

(** ** One turn *)

Section Turn.

Variable now : nat → str.

(** What [commit] writes, and what it leaves alone. *)
Lemma commit_Value resp all_bids d st st' :
  commit now resp all_bids d st = Value st' →
  personas st' = personas st ∧ analytics st' = analytics st ∧
  injection_queue st' = injection_queue st ∧
  match winning_bid all_bids with
  | Some wb =>
      transcript st' = transcript st ++
        [mkEntry (now (length (transcript st))) (current_speaker_name st)
           (strip (before_marker resp));
         mkEntry (now (S (length (transcript st)))) (interrupter_name wb)
           (interruption_text wb)] ∧
      current_speaker_name st' = interrupter_name wb
  | None =>
      transcript st' = transcript st ++
        [mkEntry (now (length (transcript st))) (current_speaker_name st)
           (strip (without_directive resp))] ∧
      select_next_speaker resp d
        (say now (current_speaker_name st) (strip (without_directive resp)) st)
        = Value (current_speaker_name st')
  end.
Proof.
  unfold commit. destruct (winning_bid all_bids) as [wb|].
  - intros [= <-]. repeat split; try reflexivity.
    cbn. rewrite <- app_assoc. simpl. rewrite length_app. simpl.
    by rewrite Nat.add_1_r.
  - destruct (select_next_speaker _ _ _) as [n|e] eqn:Hn; simpl; [|done].
    intros [= <-]. repeat split; reflexivity.
Qed.

Lemma drain_spec (q : list str) : ∀ st,
  transcript (drain now q st) =
    transcript st ++ director_entries now (length (transcript st)) q ∧
  personas (drain now q st) = personas st ∧
  analytics (drain now q st) = analytics st ∧
  current_speaker_name (drain now q st) = current_speaker_name st ∧
  injection_queue (drain now q st) =
    match q with [] => injection_queue st | _ => [] end.
Proof.
  unfold director_entries.
  induction q as [|text q IH]; intros st; simpl.
  - rewrite app_nil_r. done.
  - destruct (IH (say now Director text (set_queue q st)))
      as (Ht & Hp & Ha & Hc & Hq).
    rewrite Ht, Hp, Ha, Hc, Hq. simpl. rewrite <- app_assoc. simpl.
    rewrite Nat.add_0_r, length_app. simpl.
    repeat split; try done.
    + do 2 f_equal. apply imap_ext. intros k x _. simpl.
      do 2 f_equal. lia.
    + by destruct q.
Qed.

Lemma drain_injections_empty st :
  injection_queue st = [] → drain_injections now st = st.
Proof. unfold drain_injections. by intros ->. Qed.

Lemma injection_check_empty st :
  injection_queue st = [] → injection_check now st = st.
Proof. unfold injection_check. by intros ->. Qed.


(** What the body of a turn writes. *)
Lemma turn_body_Value i st st' :
  turn_body now i st = Value st' →
  ∃ all_bids body,
    gather (bid_tasks i st) = Value all_bids ∧
    transcript st' = transcript st ++ body ∧
    length body =
      match winning_bid all_bids with Some _ => 2%nat | None => 1%nat end ∧
    personas st' = personas st ∧ analytics st' = analytics st ∧
    injection_queue st' = injection_queue st ++ arrivals i.
Proof.
  unfold turn_body. case_bool_decide; [|done].
  destruct (gather (bid_tasks i st)) as [all_bids|e]; simpl; [|done].
  intros Hc. apply commit_Value in Hc as (Hp & Ha & Hq & Hc).
  exists all_bids. destruct (winning_bid all_bids) as [wb|];
    destruct Hc as [Ht _]; eexists; (split; [done|]); (split; [exact Ht|]);
    done.
Qed.



(** C5 as amended.  A turn that finds the injection queue empty writes
    exactly one entry when no interruption wins and exactly two when one
    does; it is then the same step whichever of the two injection
    checks is read as opening the turn. *)
Theorem turn_without_injection_writes_one_or_two
    (i : TurnInput) (st st' : Podcast)
    (all_bids : list (option InterruptionBid)) :
  injection_queue st = [] →
  gather (bid_tasks i st) = Value all_bids →
  turn now i st = Value st' →
  inner_turn now i st = Value st' ∧
  length (transcript st') =
    (length (transcript st)
     + match winning_bid all_bids with Some _ => 2 | None => 1 end)%nat.
Proof.
  intros Hq Hbids. unfold turn, inner_turn.
  rewrite (drain_injections_empty st Hq), (injection_check_empty st Hq).
  intros Hrun. split; [done|].
  apply turn_body_Value in Hrun as (bids & body & Hb & Ht & Hl & _).
  rewrite Hbids in Hb. injection Hb as <-.
  by rewrite Ht, length_app, Hl.
Qed.

End Turn.

Lemma turn_without_injection_writes_one_or_two_witness :
  injection_queue abc_state = [] ∧
  ∃ st', turn clock abc_input abc_state = Value st' ∧
    length (transcript st') = (length (transcript abc_state) + 2)%nat.
Proof.
  split; [reflexivity|].
  eexists. split; [vm_compute; reflexivity|].
  refine (proj2 (turn_without_injection_writes_one_or_two clock abc_input
           abc_state _
           [Some (mkBid 8 (chars "think") (chars "Hold on!") (chars "A"));
            Some (mkBid 9 (chars "think") (chars "Wait!") (chars "C"))]
           _ _ _)); vm_compute; reflexivity.
Defined.

(** C5, counterexample.  With one line queued and nobody bidding, the
    turn writes two entries (the queued line and the speaker's response),
    under either injection check. *)
Lemma turn_with_queued_line_writes_two :
  ¬ one_or_two_entries (turn clock) ∧ ¬ one_or_two_entries (inner_turn clock).
Proof.
  split; intros H;
    specialize (H quiet_input queued_state _ [None; None] eq_refl eq_refl);
    vm_compute in H; discriminate H.
Qed.


(** ** The session *)

Section Run.

Variable now : nat → str.

(** What a whole turn writes: the queued lines, then the entries of
    the body. *)
Lemma turn_Value i st st' :
  turn now i st = Value st' →
  ∃ body,
    transcript st' =
      transcript st
      ++ director_entries now (length (transcript st)) (injection_queue st)
      ++ body ∧
    (1 ≤ length body ≤ 2)%nat ∧
    personas st' = personas st ∧ analytics st' = analytics st ∧
    injection_queue st' = arrivals i.
Proof.
  unfold turn, inner_turn.
  destruct (drain_spec now (injection_queue st) st) as (Ht & Hp & Ha & _ & Hq).
  fold (drain_injections now st) in Ht, Hp, Ha, Hq.
  assert (Hq' : injection_queue (drain_injections now st) = [])
    by (rewrite Hq; destruct (injection_queue st) eqn:E; done).
  rewrite (injection_check_empty now _ Hq'). intros Hrun.
  apply turn_body_Value in Hrun as (bids & body & _ & Ht' & Hl & Hp' & Ha' & Hq'').
  exists body. rewrite Ht', Ht, <- app_assoc, Hp', Hp, Ha', Ha, Hq'', Hq'.
  repeat split; try done; destruct (winning_bid bids); lia.
Qed.


Lemma turns_analytics (inputs : list TurnInput) : ∀ st st',
  turns now inputs st = Value st' → analytics st' = analytics st.
Proof.
  induction inputs as [|i inputs IH]; intros st st'; simpl.
  - by intros [= <-].
  - destruct (turn now i st) as [st1|e] eqn:Hturn; simpl; [|done].
    apply turn_Value in Hturn as (_ & _ & _ & _ & Ha & _).
    intros Hrun. by rewrite (IH _ _ Hrun).
Qed.



(** C10.  With a roster whose first persona is [p], the session opens
    with the welcome of the Moderator as its only entry and [p] as the
    current speaker, and the turns run from that state. *)
Theorem first_persona_speaks_first
    (t : str) (p : Persona) (ps : list Persona) (n : nat) (q : list str) :
  ∃ st,
    start now (new_podcast t (p :: ps) n q) = Value st ∧
    transcript st = [mkEntry (now 0) Moderator
                       (chars "Welcome! Today's topic is: " ++ t ++ chars ".")] ∧
    current_speaker_name st = name p ∧
    ∀ inputs,
      run now inputs (new_podcast t (p :: ps) n q) =
      turns now (map inputs (seq 0 n)) st.
Proof. eexists. repeat split. Qed.

(** C9.  Appending a line leaves every counter of the analytics as it
    was, since [_add_to_transcript] does not call [_update_analytics]
    and nothing else does: after Alice's two words her word count is
    still 0, and a whole session ends with the counters it began with. *)
Theorem append_leaves_analytics_unchanged :
  (∀ sp ln k st,
     analytics (_add_to_transcript now sp ln k st) = analytics st) ∧
  (length (split (chars "hello world")) = 2%nat ∧
   word_counts
     (analytics (_add_to_transcript now (chars "Alice") (chars "hello world")
                   1 queued_state)) !! chars "Alice" = Some 0%nat) ∧
  (∀ inputs st st',
     run now inputs st = Value st' → analytics st' = analytics st).
Proof.
  split; [reflexivity|]. split; [split; vm_compute; reflexivity|].
  intros inputs st st'. unfold run.
  destruct (start now st) as [st0|e] eqn:Hstart; simpl; [|done].
  intros Hrun. rewrite (turns_analytics _ _ _ Hrun).
  unfold start in Hstart.
  destruct (personas (say now Moderator (welcome st) st)); [done|].
  by injection Hstart as <-.
Qed.

End Run.


(** ** The directive pattern *)






















Lemma find_marker_eq (ci : bool) (p s : str) :
  find_marker ci p s =
  if starts_with ci p s then Some ([], drop (length p) s)
  else match s with
       | [] => None
       | c :: s' =>
           match find_marker ci p s' with
           | Some (pre, post) => Some (c :: pre, post)
           | None => None
           end
       end.
Proof. by destruct s. Qed.

Lemma next_speaker_match_eq (s : str) :
  next_speaker_match s =
  match match_directive s with
  | Some g => Some g
  | None => match s with [] => None | _ :: s' => next_speaker_match s' end
  end.
Proof. by destruct s. Qed.


(** ** Speaker selection *)

Lemma persona_map_snoc (ps : list Persona) (p : Persona) :
  persona_map (ps ++ [p]) = <[normalize (name p) := name p]> (persona_map ps).
Proof. unfold persona_map. by rewrite foldl_app. Qed.

(** The map sends a normalized name to the last persona of the roster
    that has it. *)
Lemma persona_map_lookup_Some (ps : list Persona) (k n : str) :
  persona_map ps !! k = Some n ↔
  ∃ ps1 p ps2, ps = ps1 ++ p :: ps2 ∧ name p = n ∧ normalize (name p) = k ∧
    Forall (λ q, normalize (name q) ≠ k) ps2.
Proof.
  induction ps as [|p ps IH] using rev_ind.
  - split; [done|]. intros (ps1 & p & ps2 & Hps & _). by destruct ps1.
  - rewrite persona_map_snoc.
    destruct (decide (normalize (name p) = k)) as [Hk|Hk].
    + rewrite Hk, lookup_insert_eq. split.
      * intros [= <-]. exists ps, p, []. by repeat split.
      * intros (ps1 & p' & ps2 & Hps & <- & Hp' & Hps2).
        destruct ps2 as [|q ps2 _] using rev_ind.
        -- apply app_inj_tail in Hps as [_ ->]. done.
        -- rewrite app_comm_cons, app_assoc in Hps.
           apply app_inj_tail in Hps as [_ ->].
           apply Forall_app in Hps2 as [_ Hq].
           rewrite Forall_singleton in Hq. congruence.
    + rewrite lookup_insert_ne by done. rewrite IH. split.
      * intros (ps1 & p' & ps2 & -> & Hn & Hp' & Hps2).
        exists ps1, p', (ps2 ++ [p]). rewrite <- app_assoc. simpl.
        repeat split; try done. apply Forall_app. split; [done|].
        by apply Forall_singleton.
      * intros (ps1 & p' & ps2 & Hps & Hn & Hp' & Hps2).
        destruct ps2 as [|q ps2 _] using rev_ind.
        -- apply app_inj_tail in Hps as [_ ->]. done.
        -- rewrite app_comm_cons, app_assoc in Hps.
           apply app_inj_tail in Hps as [-> ->].
           apply Forall_app in Hps2 as [Hps2 _].
           by exists ps1, p', ps2.
Qed.

Lemma persona_map_names (ps : list Persona) (k n : str) :
  persona_map ps !! k = Some n → n ∈ names ps.
Proof.
  intros (ps1 & p & ps2 & -> & <- & _)%persona_map_lookup_Some.
  unfold names. rewrite map_app. simpl. rewrite elem_of_app, elem_of_cons. auto.
Qed.

Lemma names_others (st : Podcast) :
  names (others st) =
  filter (λ n, n ≠ current_speaker_name st) (names (personas st)).
Proof.
  unfold others, names. induction (personas st) as [|p ps IH]; [done|].
  simpl. destruct (decide (name p ≠ current_speaker_name st)) as [Hp|Hp].
  - rewrite !filter_cons_True by done. simpl. by rewrite IH.
  - rewrite !filter_cons_False by done. done.
Qed.

Lemma elem_of_names_others (st : Podcast) (m : str) :
  m ∈ names (others st) ↔
  m ∈ names (personas st) ∧ m ≠ current_speaker_name st.
Proof. rewrite names_others, list_elem_of_filter. tauto. Qed.

(** Two personas with different names cannot both be the speaker. *)
Lemma others_nonempty (st : Podcast) :
  NoDup (names (personas st)) → (2 ≤ length (personas st))%nat →
  names (others st) ≠ [].
Proof.
  intros Hnd Hlen Hnil.
  assert (Hall : ∀ m, m ∈ names (personas st) → m = current_speaker_name st).
  { intros m Hm. destruct (decide (m = current_speaker_name st)) as [|Hne]; [done|].
    assert (m ∈ names (others st)) as Hin by by apply elem_of_names_others.
    rewrite Hnil in Hin. by apply elem_of_nil in Hin. }
  unfold names in *.
  destruct (personas st) as [|p [|q ps]]; simpl in *; try lia.
  apply NoDup_cons in Hnd as [Hp _]. apply Hp.
  rewrite (Hall (name p)), (Hall (name q)); rewrite ?elem_of_cons; auto.
Qed.

Lemma random_choice_Value {A} (d : nat) (l : list A) :
  l ≠ [] →
  ∃ a, random_choice d l = Value a ∧ l !! (d mod length l)%nat = Some a.
Proof.
  intros Hl. unfold random_choice.
  destruct (lookup_lt_is_Some_2 l (d mod length l)%nat) as [a Ha].
  - apply Nat.mod_upper_bound. by destruct l.
  - exists a. by rewrite Ha.
Qed.

Lemma select_next_speaker_eq (resp : str) (d : nat) (st : Podcast) :
  select_next_speaker resp d st =
  match nomination resp st with
  | Some n => Value n
  | None => random_choice d (names (others st))
  end.
Proof.
  unfold select_next_speaker, nomination.
  destruct (next_speaker_match resp) as [g|]; [|done].
  destruct (persona_map (personas st) !! normalize (strip g)) as [n|]; [|done].
  by case_bool_decide.
Qed.

(** C8.  With at least two personas of distinct names, the selection
    returns a persona other than the current speaker: the persona the
    directive nominates when it nominates another one, and otherwise the
    element at the drawn index of the personas other than the speaker,
    listed once each in roster order, so that a uniform draw makes every
    one of them equally likely. *)
Theorem next_speaker_is_another_persona (resp : str) (d : nat) (st : Podcast) :
  NoDup (names (personas st)) → (2 ≤ length (personas st))%nat →
  ∃ n,
    select_next_speaker resp d st = Value n ∧
    n ≠ current_speaker_name st ∧ n ∈ names (personas st) ∧
    match nomination resp st with
    | Some m => n = m
    | None =>
        names (others st) !! (d mod length (names (others st)))%nat = Some n
    end ∧
    NoDup (names (others st)) ∧
    ∀ m, m ∈ names (others st) ↔
         m ∈ names (personas st) ∧ m ≠ current_speaker_name st.
Proof.
  intros Hnd Hlen. rewrite select_next_speaker_eq.
  assert (Hnd' : NoDup (names (others st)))
    by (rewrite names_others; by apply NoDup_filter).
  destruct (nomination resp st) as [m|] eqn:Hnom.
  - exists m. unfold nomination in Hnom.
    destruct (next_speaker_match resp) as [g|]; [|done].
    destruct (persona_map (personas st) !! normalize (strip g)) as [n|] eqn:Hn;
      [|done].
    case_bool_decide as Hne; [|done]. injection Hnom as <-.
    split; [done|]. split; [done|].
    split; [by eapply persona_map_names|]. split; [done|].
    split; [done|]. apply elem_of_names_others.
  - destruct (random_choice_Value d (names (others st))) as (n & Hn & Hl).
    { by apply others_nonempty. }
    assert (Hin : n ∈ names (others st)) by by eapply list_elem_of_lookup_2.
    apply elem_of_names_others in Hin as [Hin Hne].
    exists n. split; [done|]. split; [done|]. split; [done|].
    split; [done|]. split; [done|]. apply elem_of_names_others.
Qed.

Lemma next_speaker_is_another_persona_witness :
  NoDup (names (personas alice_state)) ∧
  (2 ≤ length (personas alice_state))%nat ∧
  ∃ n, select_next_speaker (chars "NEXT_SPEAKER: Alice") 1 alice_state = Value n ∧
       n ≠ current_speaker_name alice_state.
Proof.
  assert (Hnd : NoDup (names (personas alice_state))).
  { apply (bool_decide_unpack _). vm_compute. exact I. }
  assert (Hlen : (2 ≤ length (personas alice_state))%nat) by (simpl; lia).
  split; [exact Hnd|]. split; [exact Hlen|].
  destruct (next_speaker_is_another_persona (chars "NEXT_SPEAKER: Alice") 1
              alice_state Hnd Hlen) as (n & Hn & Hne & _).
  exists n. split; [exact Hn|exact Hne].
Defined.




(** ** A turn returns *)


(** With the texts coming from the model calls, no turn has an
    interruption: the bids gathered are all no bids. *)
Lemma no_interruption_with_the_model
    (json_loads : str → option json) (int_of_str : str → option Z)
    (response_reply : reply) (bid_reply : str → reply)
    (d : nat) (queued : list str) (st : Podcast)
    (all_bids : list (option InterruptionBid)) :
  gather (bid_tasks
            (model_input json_loads int_of_str (current_speaker_name st)
               response_reply bid_reply d queued) st) = Value all_bids →
  winning_bid all_bids = None.
Proof.
  unfold bid_tasks, model_input. simpl. intros Hg.
  apply (gathered_bids_are_no_bids json_loads int_of_str
           (map (λ p, (name p, bid_reply (name p))) (others st))).
  by rewrite map_map.
Qed.

(** * More of the engine *)

(** ** Stripping *)

Lemma lstrip_app (a b : str) :
  lstrip (a ++ b) = match lstrip a with [] => lstrip b | r => r ++ b end.
Proof.
  induction a as [|c a IH]; simpl; [done|]. by destruct (is_space c).
Qed.

Lemma lstrip_idemp (s : str) : lstrip (lstrip s) = lstrip s.
Proof.
  induction s as [|c s IH]; simpl; [done|].
  destruct (is_space c) eqn:Hc; [done|]. simpl. by rewrite Hc.
Qed.

Lemma lstrip_head (s : str) (c : ascii) :
  head (lstrip s) = Some c → is_space c = false.
Proof.
  induction s as [|a s IH]; simpl; [done|].
  destruct (is_space a) eqn:Ha; [done|]. simpl. by intros [= <-].
Qed.

Lemma lstrip_nonspace (c : ascii) (s : str) :
  is_space c = false → lstrip (c :: s) = c :: s.
Proof. simpl. by intros ->. Qed.

Lemma rstrip_cons (c : ascii) (s : str) :
  rstrip (c :: s) =
  match rstrip s with
  | [] => if is_space c then [] else [c]
  | r => c :: r
  end.
Proof.
  unfold rstrip. rewrite reverse_cons, lstrip_app.
  destruct (lstrip (reverse s)) as [|a r] eqn:Hr.
  - simpl. by destruct (is_space c).
  - rewrite reverse_app, reverse_singleton. simpl.
    destruct (reverse (a :: r)) eqn:Hrev; [|done].
    apply (f_equal reverse) in Hrev. rewrite reverse_involutive in Hrev.
    done.
Qed.

Lemma rstrip_nil_lstrip (s : str) : rstrip s = [] → lstrip s = [].
Proof.
  induction s as [|c s IH]; [done|]. rewrite rstrip_cons. simpl.
  destruct (rstrip s); [|done]. destruct (is_space c); [|done]. auto.
Qed.

Lemma lstrip_rstrip (s : str) : lstrip (rstrip s) = rstrip (lstrip s).
Proof.
  induction s as [|c s IH]; [done|]. rewrite rstrip_cons.
  destruct (is_space c) eqn:Hc.
  - simpl lstrip at 2. rewrite Hc.
    destruct (rstrip s) as [|a r] eqn:Hr.
    + simpl. by rewrite (rstrip_nil_lstrip s Hr).
    + simpl. rewrite Hc. done.
  - rewrite (lstrip_nonspace c s Hc), rstrip_cons.
    destruct (rstrip s); rewrite ?Hc; by apply lstrip_nonspace.
Qed.

Lemma rstrip_idemp (s : str) : rstrip (rstrip s) = rstrip s.
Proof.
  unfold rstrip. by rewrite reverse_involutive, lstrip_idemp.
Qed.

(** Stripping twice is stripping once. *)
Lemma strip_idemp (s : str) : strip (strip s) = strip s.
Proof.
  unfold strip. by rewrite lstrip_rstrip, lstrip_idemp, rstrip_idemp.
Qed.

Lemma rstrip_last (s : str) (c : ascii) :
  last (rstrip s) = Some c → is_space c = false.
Proof.
  unfold rstrip. rewrite last_reverse. apply lstrip_head.
Qed.

Lemma strip_head (s : str) (c : ascii) :
  head (strip s) = Some c → is_space c = false.
Proof.
  unfold strip. rewrite <- lstrip_rstrip. apply lstrip_head.
Qed.

Lemma strip_last (s : str) (c : ascii) :
  last (strip s) = Some c → is_space c = false.
Proof. unfold strip. apply rstrip_last. Qed.

Lemma elem_of_lstrip (s : str) (c : ascii) : c ∈ lstrip s → c ∈ s.
Proof.
  induction s as [|a s IH]; simpl; [done|].
  destruct (is_space a); [|done]. intros Hc. apply elem_of_cons. auto.
Qed.

Lemma elem_of_strip (s : str) (c : ascii) : c ∈ strip s → c ∈ s.
Proof.
  unfold strip, rstrip. rewrite elem_of_reverse.
  intros Hc%elem_of_lstrip. rewrite elem_of_reverse in Hc.
  by apply elem_of_lstrip.
Qed.

Lemma length_lstrip (s : str) : (length (lstrip s) ≤ length s)%nat.
Proof.
  induction s as [|a s IH]; simpl; [done|]. destruct (is_space a); simpl; lia.
Qed.

Lemma length_strip (s : str) : (length (strip s) ≤ length s)%nat.
Proof.
  unfold strip, rstrip. rewrite length_reverse.
  etransitivity; [apply length_lstrip|]. rewrite length_reverse.
  apply length_lstrip.
Qed.

Lemma rstrip_nonspace (s : str) (b : ascii) :
  is_space b = false → rstrip (s ++ [b]) = s ++ [b].
Proof.
  intros Hb. unfold rstrip. rewrite reverse_app, reverse_singleton.
  change ([b] ++ reverse s) with (b :: reverse s).
  by rewrite (lstrip_nonspace b _ Hb), reverse_cons, reverse_involutive.
Qed.

(** A text that neither begins nor ends with white space is its own
    stripped form. *)
Lemma strip_id (a b : ascii) (s : str) :
  is_space a = false → is_space b = false →
  strip (a :: s ++ [b]) = a :: s ++ [b].
Proof.
  intros Ha Hb. unfold strip. rewrite (lstrip_nonspace a _ Ha).
  apply (rstrip_nonspace (a :: s) b Hb).
Qed.

(** ** Text for speech *)

Lemma split_from_words (s : str) : ∀ cur w,
  Forall (λ c, is_space c = false) cur →
  w ∈ split_from cur s → Forall (λ c, is_space c = false) w.
Proof.
  induction s as [|a s IH]; intros cur w Hcur; simpl.
  - destruct cur as [|c cur]; [by intros ?%elem_of_nil|].
    intros ->%list_elem_of_singleton. by apply Forall_reverse.
  - destruct (is_space a) eqn:Ha.
    + destruct cur as [|c cur]; [by apply IH|].
      intros [->|Hw]%elem_of_cons; [by apply Forall_reverse|].
      by apply (IH [] w).
    + apply IH. by constructor.
Qed.

Lemma elem_of_join (sep : str) (words : list str) (c : ascii) :
  c ∈ join sep words → c ∈ sep ∨ ∃ w, w ∈ words ∧ c ∈ w.
Proof.
  induction words as [|w words IH]; [by intros ?%elem_of_nil|].
  cbn [join]. destruct words as [|w' words].
  - intros Hc. right. exists w. split; [apply elem_of_cons; by left|done].
  - rewrite !elem_of_app. intros [Hc|[Hc|Hc]].
    + right. exists w. split; [apply elem_of_cons; by left|done].
    + by left.
    + destruct (IH Hc) as [?|(w0 & Hw0 & Hc0)]; [by left|].
      right. exists w0. split; [apply elem_of_cons; by right|done].
Qed.

Lemma length_join_split (s : str) : ∀ cur,
  (length (join (chars " ") (split_from cur s)) ≤ length cur + length s)%nat.
Proof.
  induction s as [|a s IH]; intros cur; simpl.
  - destruct cur; simpl; [lia|]. rewrite length_reverse. simpl. lia.
  - destruct (is_space a).
    + destruct cur as [|c cur]; [specialize (IH []); simpl in IH; lia|].
      specialize (IH []). cbn [join].
      destruct (split_from [] s); simpl in *;
        rewrite ?length_app, length_reverse; simpl; lia.
    + specialize (IH (a :: cur)). simpl in IH. lia.
Qed.

Lemma remove_spans_skip (g : bool) (o cl : ascii) (s : str) : ∀ k,
  remove_spans g o cl k s = remove_spans g o cl O (drop k s).
Proof.
  induction s as [|a s IH]; intros [|k]; try done. simpl. apply IH.
Qed.

Lemma length_remove_spans (g : bool) (o cl : ascii) (s : str) : ∀ k,
  (length (remove_spans g o cl k s) ≤ length s)%nat.
Proof.
  induction s as [|a s IH]; intros k; simpl; [by destruct k|].
  destruct k as [|k]; [|specialize (IH k); lia].
  case_bool_decide.
  - destruct ((if g then index_last else index_first) cl (line_of s)) as [j|].
    + specialize (IH (S j)). lia.
    + specialize (IH O). simpl. lia.
  - specialize (IH O). simpl. lia.
Qed.

Lemma length_replace_ellipses (s : str) : ∀ k,
  (length (replace_ellipses k s) ≤ length s)%nat.
Proof.
  induction s as [|a s IH]; intros k; [by destruct k|].
  cbn [replace_ellipses]. destruct k as [|k]; [|specialize (IH k); simpl; lia].
  destruct (starts_with false (chars "...") (a :: s)).
  - specialize (IH 2%nat). simpl. lia.
  - specialize (IH O). simpl. lia.
Qed.

(** X1.  The text handed to the speech synthesiser consists of letters,
    digits, the space and the marks [. , ! ? -] only, in the engine and
    in the TTS script alike: no other white space than the space, no
    bracket, no quote survives the cleaning. *)
Theorem clean_text_alphabet (greedy_parens : bool) (text : str) (c : ascii) :
  c ∈ clean_with greedy_parens text →
  is_alnum c = true ∨ c = " "%char ∨ c ∈ chars ".,!?-".
Proof.
  unfold clean_with. intros Hc%elem_of_strip.
  apply list_elem_of_filter in Hc as [Hsp Hc].
  unfold speakable in Hsp. apply Is_true_true in Hsp.
  rewrite !orb_true_iff, bool_decide_eq_true in Hsp.
  destruct Hsp as [[Hal|Hspace]|Hmark]; [by left| |by right; right].
  right. left. apply elem_of_join in Hc as [Hc|(w & Hw & Hc)].
  - by apply list_elem_of_singleton in Hc.
  - unfold split in Hw. apply split_from_words in Hw; [|constructor].
    rewrite Forall_forall in Hw. specialize (Hw c Hc). congruence.
Qed.

Lemma clean_text_alphabet_witness :
  "i"%char ∈ clean_text_for_tts (chars "Hi (laughs) there!") ∧
  (is_alnum "i" = true ∨ "i"%char = " "%char ∨ "i"%char ∈ chars ".,!?-").
Proof.
  assert (H : "i"%char ∈ clean_text_for_tts (chars "Hi (laughs) there!")).
  { vm_compute. apply elem_of_cons. right. apply elem_of_cons. by left. }
  split; [exact H|].
  exact (clean_text_alphabet true (chars "Hi (laughs) there!") "i"%char H).
Defined.

(** X2.  The cleaned text neither begins nor ends with white space, and
    it is never longer than the text it was made from. *)
Theorem clean_text_is_stripped_and_shorter (greedy_parens : bool) (text : str) :
  (∀ c, head (clean_with greedy_parens text) = Some c → is_space c = false) ∧
  (∀ c, last (clean_with greedy_parens text) = Some c → is_space c = false) ∧
  (length (clean_with greedy_parens text) ≤ length text)%nat.
Proof.
  unfold clean_with. split; [|split].
  - intros c. apply strip_head.
  - intros c. apply strip_last.
  - etransitivity; [apply length_strip|].
    etransitivity; [apply length_filter|].
    etransitivity; [apply (length_join_split _ [])|]. simpl.
    etransitivity; [apply length_replace_ellipses|].
    etransitivity; [apply length_remove_spans|].
    apply length_remove_spans.
Qed.

Lemma index_last_None (c : ascii) (s : str) : c ∉ s → index_last c s = None.
Proof.
  induction s as [|a s IH]; [done|]. intros [Hne Hs]%not_elem_of_cons.
  simpl. rewrite (IH Hs). by rewrite bool_decide_eq_false_2.
Qed.

Lemma index_first_None (c : ascii) (s : str) : c ∉ s → index_first c s = None.
Proof.
  induction s as [|a s IH]; [done|]. intros [Hne Hs]%not_elem_of_cons.
  simpl. rewrite (IH Hs). by rewrite bool_decide_eq_false_2.
Qed.

Lemma index_last_app (c : ascii) (t : str) : ∀ b,
  c ∉ t → index_last c (b ++ c :: t) = Some (length b).
Proof.
  induction b as [|a b IH]; intros Ht; simpl.
  - rewrite (index_last_None c t Ht). by rewrite bool_decide_eq_true_2.
  - by rewrite (IH Ht).
Qed.

Lemma index_first_app (c : ascii) (t : str) : ∀ b,
  c ∉ b → index_first c (b ++ c :: t) = Some (length b).
Proof.
  induction b as [|a b IH]; simpl.
  - intros _. by rewrite bool_decide_eq_true_2.
  - intros [Hne Hb]%not_elem_of_cons.
    rewrite bool_decide_eq_false_2 by done. by rewrite (IH Hb).
Qed.

Lemma elem_of_line_of (s : str) (c : ascii) : c ∈ line_of s → c ∈ s.
Proof.
  unfold line_of. intros (i & Hi & _)%elem_of_take.
  by eapply list_elem_of_lookup_2.
Qed.

Lemma line_of_app (b t : str) (c : ascii) :
  newline ∉ b → c ≠ newline → line_of (b ++ c :: t) = b ++ c :: line_of t.
Proof.
  unfold line_of. induction b as [|a b IH]; simpl.
  - intros _ Hc. unfold not_newline at 1.
    rewrite bool_decide_eq_false_2 by done. done.
  - intros [Hne Hb]%not_elem_of_cons Hc. unfold not_newline at 1.
    rewrite bool_decide_eq_false_2 by done. simpl. f_equal. by apply IH.
Qed.

Lemma remove_spans_no_opening (g : bool) (o cl : ascii) (s : str) : ∀ a,
  o ∉ a → remove_spans g o cl O (a ++ s) = a ++ remove_spans g o cl O s.
Proof.
  induction a as [|x a IH]; [done|]. intros [Hne Ha]%not_elem_of_cons.
  simpl. rewrite bool_decide_eq_false_2 by done. f_equal. by apply IH.
Qed.

Lemma remove_spans_no_closing (g : bool) (o cl : ascii) (s : str) :
  cl ∉ s → remove_spans g o cl O s = s.
Proof.
  induction s as [|x s IH]; [done|]. intros [Hne Hs]%not_elem_of_cons.
  simpl. rewrite (IH Hs).
  assert (cl ∉ line_of s) as Hline by (intros ?%elem_of_line_of; done).
  case_bool_decide; [|done].
  destruct g; by rewrite ?(index_last_None _ _ Hline), ?(index_first_None _ _ Hline).
Qed.

(** A remark from an opening character to a closing one on the same
    line is removed: up to the last closing character of the line by the
    greedy pattern, up to the first by the lazy one. *)
Lemma remove_spans_remark (g : bool) (o cl : ascii) (a b c : str) :
  o ∉ a → newline ∉ b → cl ≠ newline →
  (if g then cl ∉ c else cl ∉ b) →
  remove_spans g o cl O (a ++ o :: b ++ cl :: c)
  = a ++ remove_spans g o cl O c.
Proof.
  intros Ha Hb Hcl Hg. rewrite (remove_spans_no_opening g o cl _ a Ha).
  f_equal. cbn [remove_spans]. rewrite bool_decide_eq_true_2 by done.
  rewrite (line_of_app b c cl Hb Hcl).
  assert (Hidx : (if g then index_last else index_first) cl (b ++ cl :: line_of c)
                 = Some (length b)).
  { destruct g.
    - apply index_last_app. intros ?%elem_of_line_of. done.
    - by apply index_first_app. }
  rewrite Hidx, remove_spans_skip. do 2 f_equal.
  replace (b ++ cl :: c) with ((b ++ [cl]) ++ c) by (by rewrite <- app_assoc).
  apply drop_app_length'. rewrite length_app. simpl. lia.
Qed.

Lemma remove_spans_two_remarks (x r1 y r2 z : str) :
  "("%char ∉ x → "("%char ∉ y →
  ")"%char ∉ r1 → ")"%char ∉ r2 → ")"%char ∉ z →
  newline ∉ r1 → newline ∉ y → newline ∉ r2 →
  let text := x ++ chars "(" ++ r1 ++ chars ")" ++ y
                ++ chars "(" ++ r2 ++ chars ")" ++ z in
  remove_spans true "(" ")" O text = x ++ z ∧
  remove_spans false "(" ")" O text = x ++ y ++ z.
Proof.
  intros Hx Hy Hr1 Hr2 Hz Hn1 Hny Hn2. cbn [chars list_ascii_of_string app].
  split.
  - replace (x ++ "("%char :: r1 ++ ")"%char :: y ++ "("%char :: r2 ++ ")"%char :: z)
      with (x ++ "("%char :: (r1 ++ ")"%char :: y ++ "("%char :: r2) ++ ")"%char :: z)
      by (by rewrite <- !app_assoc; simpl; rewrite <- !app_assoc).
    rewrite (remove_spans_remark true); try done.
    + by rewrite remove_spans_no_closing.
    + rewrite !not_elem_of_app, !not_elem_of_cons, !not_elem_of_app,
        !not_elem_of_cons.
      repeat split; done.
  - rewrite (remove_spans_remark false); try done. f_equal.
    rewrite (remove_spans_remark false); try done. f_equal.
    by rewrite remove_spans_no_closing.
Qed.

(** X3.  On a line with two parenthetical remarks, the engine's cleaning
    removes everything from the first opening parenthesis to the last
    closing one, the words between the two remarks included, while the
    cleaning of the TTS script removes the two remarks and keeps the
    words between them. *)
Theorem greedy_parentheses_take_the_words_between
    (x r1 y r2 z : str) :
  "("%char ∉ x → "("%char ∉ y →
  ")"%char ∉ r1 → ")"%char ∉ r2 → ")"%char ∉ z →
  newline ∉ r1 → newline ∉ y → newline ∉ r2 →
  let text := x ++ chars "(" ++ r1 ++ chars ")" ++ y
                ++ chars "(" ++ r2 ++ chars ")" ++ z in
  clean_text_for_tts text = clean_text_for_tts (x ++ z) ∧
  clean_text text = clean_text (x ++ y ++ z).
Proof.
  intros Hx Hy Hr1 Hr2 Hz Hn1 Hny Hn2 text.
  destruct (remove_spans_two_remarks x r1 y r2 z Hx Hy Hr1 Hr2 Hz Hn1 Hny Hn2)
    as [Hgreedy Hlazy].
  fold text in Hgreedy, Hlazy.
  unfold clean_text_for_tts, clean_text, clean_with.
  rewrite Hgreedy, Hlazy.
  rewrite (remove_spans_no_opening true "(" ")" z x Hx),
    (remove_spans_no_closing true "(" ")" z Hz),
    (remove_spans_no_opening false "(" ")" (y ++ z) x Hx),
    (remove_spans_no_opening false "(" ")" z y Hy),
    (remove_spans_no_closing false "(" ")" z Hz).
  done.
Qed.

Lemma greedy_parentheses_take_the_words_between_witness :
  clean_text_for_tts (chars "Well (laughs) I agree (nods) fully")
    = clean_text_for_tts (chars "Well  fully") ∧
  clean_text (chars "Well (laughs) I agree (nods) fully")
    = clean_text (chars "Well  I agree  fully").
Proof.
  apply (greedy_parentheses_take_the_words_between
           (chars "Well ") (chars "laughs") (chars " I agree ")
           (chars "nods") (chars " fully"));
    cbn [chars list_ascii_of_string];
    rewrite ?not_elem_of_cons; repeat split; try discriminate;
    apply not_elem_of_nil.
Defined.

(** ** The bid parser on every text *)

Lemma search_braces_doubled (r m : str) :
  search_braces r = Some m → ∃ t, m = chars "{{" ++ t.
Proof.
  induction r as [|c r IH]; cbn [search_braces]; unfold match_braces.
  - intros H. vm_compute in H. discriminate H.
  - destruct (starts_with false (chars "{{") (c :: r)); [|by apply IH].
    destruct (find_marker false (chars "}}") (drop 2 (c :: r)))
      as [[mid post]|]; [|by apply IH].
    intros [= <-]. by eexists.
Qed.

Lemma repairs_keep_doubled_braces (t : str) :
  escape_bars (drop_trailing_commas (replace_quotes (chars "{{" ++ t)))
  = chars "{{" ++ escape_bars (drop_trailing_commas (replace_quotes t)).
Proof. reflexivity. Qed.

(** X4.  As long as [json.loads] rejects a text that opens with two
    braces, which the grammar of JSON makes it do, [_robust_json_parse]
    returns nothing on every text, and therefore every bid call returns
    no bid, whatever the model replied: it neither bids nor raises. *)
Theorem bid_parser_parses_nothing
    (json_loads : str → option json) (int_of_str : str → option Z) :
  rejects_doubled_braces json_loads →
  (∀ r, _robust_json_parse json_loads r = None) ∧
  (∀ name reply,
     bid_for_interruption json_loads int_of_str name reply = Value None).
Proof.
  intros Hjson.
  assert (Hparse : ∀ r, _robust_json_parse json_loads r = None).
  { intros r. unfold _robust_json_parse.
    destruct (search_braces r) as [m|] eqn:Hm; [|done].
    apply search_braces_doubled in Hm as [t ->].
    rewrite repairs_keep_doubled_braces. apply Hjson. }
  split; [done|]. intros name reply. unfold bid_for_interruption.
  by apply unparsed_text_is_no_bid.
Qed.

Lemma bid_parser_parses_nothing_witness :
  rejects_doubled_braces json_loads_empty_object ∧
  bid_for_interruption json_loads_empty_object (λ _, None) (chars "Carol")
    (Reply200 (chars "{{'importance': 9, 'interruption_text': 'Wait!'}}"))
  = Value None.
Proof.
  assert (H : rejects_doubled_braces json_loads_empty_object).
  { intros s. unfold json_loads_empty_object.
    by rewrite bool_decide_eq_false_2. }
  split; [exact H|].
  apply (bid_parser_parses_nothing json_loads_empty_object (λ _, None) H).
Defined.

(** ** A response call that fails *)

Lemma decimal_digits (n : nat) (c : ascii) : c ∈ decimal n → is_digit c = true.
Proof.
  unfold decimal. generalize (Nat.to_uint n) as d.
  induction d; cbn [NilEmpty.string_of_uint chars list_ascii_of_string];
    rewrite ?elem_of_cons; intros H;
    try (by apply elem_of_nil in H); destruct H as [->|H]; auto.
Qed.

Lemma digit_is_not_n (c : ascii) : is_digit c = true → lower c ≠ "n"%char.
Proof.
  destruct c as [[] [] [] [] [] [] [] []]; vm_compute; congruence.
Qed.

(** A text without the letter n has no marker in it. *)
Lemma no_n_no_marker (s : str) :
  Forall (λ c, lower c ≠ "n"%char) s →
  find_marker true NEXT_SPEAKER s = None ∧ next_speaker_match s = None.
Proof.
  induction 1 as [|c s Hc Hs [IH1 IH2]].
  - split; vm_compute; reflexivity.
  - assert (Hstart : starts_with true NEXT_SPEAKER (c :: s) = false).
    { cbn [NEXT_SPEAKER chars list_ascii_of_string starts_with char_eqb].
      rewrite bool_decide_eq_false_2; [done|].
      intros Heq. apply Hc. by rewrite <- Heq. }
    rewrite find_marker_eq, next_speaker_match_eq. unfold match_directive.
    by rewrite Hstart, IH1, IH2.
Qed.

(** The text a failed call returns is written as it is and names
    nobody. *)
Lemma error_text_is_plain (name : str) (r : reply) :
  failed r →
  strip (without_directive (_call_ollama name r)) = _call_ollama name r ∧
  next_speaker_match (_call_ollama name r) = None.
Proof.
  destruct r as [t|status|]; [done| |]; intros _.
  - assert (Hn : Forall (λ c, lower c ≠ "n"%char) (_call_ollama name (ReplyStatus status))).
    { unfold _call_ollama. rewrite !Forall_app. repeat split.
      - cbn [chars list_ascii_of_string]. repeat constructor; vm_compute; discriminate.
      - apply Forall_forall. intros c Hc. apply digit_is_not_n.
        by eapply decimal_digits.
      - repeat constructor. vm_compute. discriminate. }
    destruct (no_n_no_marker _ Hn) as [Hf Hm]. split; [|done].
    unfold without_directive. rewrite Hf. unfold _call_ollama.
    change (chars "[Error: API Error " ++ decimal status ++ chars "]")
      with ("["%char :: (chars "Error: API Error " ++ decimal status ++ chars "]")).
    rewrite app_assoc. by apply strip_id.
  - split; vm_compute; reflexivity.
Qed.

(** X5.  When the model call for the speaker's response fails (a status
    other than 200, or an exception in the call), the turn does not stop:
    the bracketed error text is written as the speaker's line, exactly as
    returned, and since it names nobody the next speaker is the one the
    random draw picks among the other personas. *)
Theorem failed_response_is_written_as_the_line
    (now : nat → str)
    (json_loads : str → option json) (int_of_str : str → option Z)
    (response_reply : reply) (bid_reply : str → reply)
    (d : nat) (queued : list str) (st st' : Podcast) :
  failed response_reply →
  turn_body now
    (model_input json_loads int_of_str (current_speaker_name st)
       response_reply bid_reply d queued) st = Value st' →
  transcript st' =
    transcript st ++
    [mkEntry (now (length (transcript st))) (current_speaker_name st)
       (_call_ollama (current_speaker_name st) response_reply)] ∧
  (_call_ollama (current_speaker_name st) response_reply
     = chars "[Error: Connection Failed]" ∨
   ∃ status, _call_ollama (current_speaker_name st) response_reply
     = chars "[Error: API Error " ++ decimal status ++ chars "]") ∧
  names (others st) !! (d mod length (names (others st)))%nat
    = Some (current_speaker_name st').
Proof.
  intros Hfailed Hrun.
  destruct (error_text_is_plain (current_speaker_name st) response_reply Hfailed)
    as [Hstrip Hmatch].
  unfold turn_body in Hrun. case_bool_decide; [|done].
  destruct (gather _) as [all_bids|e] eqn:Hg; simpl in Hrun; [|done].
  apply no_interruption_with_the_model in Hg.
  apply commit_Value in Hrun as (_ & _ & _ & Hc). rewrite Hg in Hc.
  destruct Hc as [Ht Hsel]. rewrite Hstrip in Ht, Hsel. split; [exact Ht|].
  split.
  - destruct response_reply as [t|status|]; [done| |]; [right|left]; eauto.
  - rewrite select_next_speaker_eq in Hsel. unfold nomination in Hsel.
    rewrite Hmatch in Hsel. unfold random_choice in Hsel.
    change (others (say now _ _ _)) with (others st) in Hsel.
    by destruct (names (others st) !! _) as [n|]; simplify_eq.
Qed.

Lemma failed_response_is_written_as_the_line_witness :
  failed ReplyFailed ∧
  ∃ st',
    turn_body clock
      (model_input (λ _, None) (λ _, None) (current_speaker_name alice_state)
         ReplyFailed (λ _, ReplyStatus 503) 0 []) alice_state = Value st' ∧
    map line (transcript st') = [chars "[Error: Connection Failed]"] ∧
    Some (current_speaker_name st') = Some (chars "Bob").
Proof.
  split; [exact I|]. eexists. split; [vm_compute; reflexivity|].
  match goal with
  | |- map line (transcript ?s) = _ ∧ _ =>
      assert (Hrun : turn_body clock
                (model_input (λ _, None) (λ _, None)
                   (current_speaker_name alice_state) ReplyFailed
                   (λ _, ReplyStatus 503) 0 []) alice_state = Value s)
        by (vm_compute; reflexivity)
  end.
  destruct (failed_response_is_written_as_the_line clock (λ _, None) (λ _, None)
              ReplyFailed (λ _, ReplyStatus 503) 0 [] alice_state _ I Hrun)
    as (Ht & _ & Hsel).
  split; [rewrite Ht; reflexivity|]. rewrite <- Hsel. reflexivity.
Defined.

(** ** What a session keeps *)

Section Kept.

Variable now : nat → str.



Lemma turn_eq i st :
  turn now i st = turn_body now i (drain_injections now st).
Proof.
  unfold turn, inner_turn. f_equal. apply injection_check_empty.
  destruct (drain_spec now (injection_queue st) st) as (_ & _ & _ & _ & Hq).
  unfold drain_injections. rewrite Hq. by destruct (injection_queue st).
Qed.








End Kept.



(** ** A session runs to its end, or cannot start *)







Section Completes.

Variable now : nat → str.




End Completes.



(** ** Rosters that are too small *)

Section Small.

Variable now : nat → str.

Lemma lone_persona_turn i st p :
  personas st = [p] → current_speaker_name st = name p →
  turn now i st = Raise IndexError.
Proof.
  intros Hp Hc. rewrite turn_eq.
  destruct (drain_spec now (injection_queue st) st) as (_ & Hp1 & _ & Hc1 & _).
  fold (drain_injections now st) in Hp1, Hc1.
  set (st1 := drain_injections now st) in *.
  rewrite Hp in Hp1. rewrite Hc in Hc1.
  assert (Hothers : ∀ s, personas s = [p] → current_speaker_name s = name p →
                         others s = []).
  { intros s Hs Hcs. unfold others. rewrite Hs, Hcs.
    by rewrite filter_cons_False, filter_nil by (by intros ?). }
  unfold turn_body. rewrite Hp1, Hc1.
  rewrite bool_decide_eq_true_2 by (apply elem_of_cons; by left).
  unfold bid_tasks. rewrite (Hothers st1 Hp1 Hc1). simpl.
  unfold commit. simpl. rewrite select_next_speaker_eq.
  unfold nomination, others. simpl. rewrite Hp1, Hc1.
  rewrite filter_cons_False, filter_nil by (by intros ?).
  destruct (next_speaker_match _) as [g|]; [|done].
  destruct (persona_map [p] !! _) as [n|] eqn:Hn; [|done].
  apply persona_map_names in Hn. apply list_elem_of_singleton in Hn as ->.
  by rewrite bool_decide_eq_false_2 by (by intros ?).
Qed.

(** X9.  A roster of one persona cannot hold a conversation: whatever
    the model replies, the first turn writes the response and then raises
    [IndexError], since the random fallback has nobody to choose from and
    a directive can only name the speaker.  An empty roster raises
    [IndexError] before the first turn.  Only a session of no turns gets
    through with one persona. *)
Theorem small_roster_raises
    (inputs : nat → TurnInput) (t : str) (p : Persona) (n : nat)
    (q : list str) :
  run now inputs (new_podcast t [p] (S n) q) = Raise IndexError ∧
  run now inputs (new_podcast t [] n q) = Raise IndexError ∧
  ∃ st, run now inputs (new_podcast t [p] 0 q) = Value st ∧
        length (transcript st) = 1%nat.
Proof.
  split; [|split].
  - unfold run, start. simpl. by rewrite (lone_persona_turn _ _ p).
  - reflexivity.
  - eexists. split; reflexivity.
Qed.

End Small.

(** ** The counters of the analytics *)

Lemma update_all_cons (c : str * str) (calls : list (str * str)) (st : Podcast) :
  update_all (c :: calls) st
  = update_all calls (_update_analytics (fst c) (snd c) st).
Proof. reflexivity. Qed.

Lemma words_of_cons (sp : str) (c : str * str) (calls : list (str * str)) :
  words_of sp (c :: calls) =
  ((if bool_decide (fst c = sp) then length (split (snd c)) else O)
   + words_of sp calls)%nat.
Proof.
  unfold words_of. case_bool_decide.
  - by rewrite filter_cons_True.
  - by rewrite filter_cons_False.
Qed.

Lemma lines_of_cons (sp : str) (c : str * str) (calls : list (str * str)) :
  lines_of sp (c :: calls) =
  ((if bool_decide (fst c = sp) then 1 else O) + lines_of sp calls)%nat.
Proof.
  unfold lines_of. case_bool_decide.
  - by rewrite filter_cons_True.
  - by rewrite filter_cons_False.
Qed.

Lemma lines_of_zero (sp : str) (calls : list (str * str)) :
  lines_of sp calls = O → words_of sp calls = O.
Proof.
  unfold lines_of, words_of. intros H%length_zero_iff_nil. by rewrite H.
Qed.

Lemma _update_analytics_word_counts (s l sp : str) (st : Podcast) :
  word_counts (analytics (_update_analytics s l st)) !! sp =
  if bool_decide (s = sp)
  then Some (default O (word_counts (analytics st) !! sp) + length (split l))%nat
  else word_counts (analytics st) !! sp.
Proof.
  unfold _update_analytics. cbn [analytics set_analytics word_counts].
  case_bool_decide as Hs.
  - subst. apply lookup_insert_eq.
  - by apply lookup_insert_ne.
Qed.

Lemma _update_analytics_turn_counts (s l sp : str) (st : Podcast) :
  turn_counts (analytics (_update_analytics s l st)) !! sp =
  if bool_decide (s = sp ∧ sp ≠ Moderator ∧ sp ≠ Director)
  then Some (default O (turn_counts (analytics st) !! sp) + 1)%nat
  else turn_counts (analytics st) !! sp.
Proof.
  unfold _update_analytics. cbn [analytics set_analytics turn_counts].
  destruct (decide (s = sp)) as [->|Hne].
  - destruct (decide (sp ≠ Moderator ∧ sp ≠ Director)) as [Hp|Hp].
    + rewrite (bool_decide_eq_true_2 _ Hp), bool_decide_eq_true_2 by done.
      apply lookup_insert_eq.
    + rewrite (bool_decide_eq_false_2 _ Hp), bool_decide_eq_false_2 by tauto.
      done.
  - rewrite (bool_decide_eq_false_2 (s = sp ∧ _)) by tauto.
    case_bool_decide; [by apply lookup_insert_ne|done].
Qed.

Lemma _update_analytics_interruption_counts (s l : str) (st : Podcast) :
  interruption_counts (analytics (_update_analytics s l st))
  = interruption_counts (analytics st).
Proof. reflexivity. Qed.

Lemma update_all_word_counts (sp : str) (calls : list (str * str)) : ∀ st,
  word_counts (analytics (update_all calls st)) !! sp =
  if bool_decide (lines_of sp calls = O)
  then word_counts (analytics st) !! sp
  else Some (default O (word_counts (analytics st) !! sp)
             + words_of sp calls)%nat.
Proof.
  induction calls as [|[s l] calls IH]; intros st; [done|].
  rewrite update_all_cons, IH, words_of_cons, lines_of_cons.
  rewrite _update_analytics_word_counts. cbn [fst snd].
  pose proof (lines_of_zero sp calls) as Hz.
  repeat case_bool_decide; simpl; try lia; try done.
  - rewrite Hz by done. f_equal. lia.
  - f_equal. lia.
Qed.

Lemma update_all_turn_counts (sp : str) (calls : list (str * str)) : ∀ st,
  turn_counts (analytics (update_all calls st)) !! sp =
  if bool_decide (lines_of sp calls = O ∨ sp = Moderator ∨ sp = Director)
  then turn_counts (analytics st) !! sp
  else Some (default O (turn_counts (analytics st) !! sp)
             + lines_of sp calls)%nat.
Proof.
  induction calls as [|[s l] calls IH]; intros st.
  - by rewrite bool_decide_eq_true_2 by (by left).
  - rewrite update_all_cons, IH, lines_of_cons.
    rewrite _update_analytics_turn_counts. cbn [fst snd].
    repeat case_bool_decide; simpl in *; try done;
      try (exfalso; destruct_or?; destruct_and?; (lia || tauto || congruence)).
    + destruct_or?; try tauto. f_equal. lia.
    + f_equal. lia.
Qed.

Lemma zero_counts_lookup (ps : list Persona) (sp : str) :
  sp ∈ names ps → zero_counts ps !! sp = Some O.
Proof.
  unfold zero_counts, names.
  induction ps as [|p ps IH] using rev_ind; [by intros ?%elem_of_nil|].
  rewrite map_app, foldl_app, elem_of_app. simpl.
  destruct (decide (name p = sp)) as [->|Hne].
  - intros _. apply lookup_insert_eq.
  - rewrite lookup_insert_ne by done.
    intros [Hin|Hin%list_elem_of_singleton]; [by apply IH|done].
Qed.

Lemma update_all_interruption_counts (calls : list (str * str)) : ∀ st,
  interruption_counts (analytics (update_all calls st))
  = interruption_counts (analytics st).
Proof.
  induction calls as [|c calls IH]; intros st; [done|].
  by rewrite update_all_cons, IH.
Qed.

(** X10.  Were [_update_analytics] called for every line of a session, a
    persona's word count would be the number of words of its lines and
    its turn count the number of its lines; a persona that bears the name
    of a reserved role gets no turn counted, and nothing ever counts an
    interruption. *)
Theorem counters_add_up
    (t : str) (ps : list Persona) (n : nat) (q : list str)
    (calls : list (str * str)) (sp : str) :
  sp ∈ names ps →
  let st := update_all calls (new_podcast t ps n q) in
  word_counts (analytics st) !! sp = Some (words_of sp calls) ∧
  turn_counts (analytics st) !! sp =
    Some (if bool_decide (sp = Moderator ∨ sp = Director) then O
          else lines_of sp calls) ∧
  interruption_counts (analytics st) !! sp = Some O.
Proof.
  intros Hsp st. unfold st.
  rewrite update_all_word_counts, update_all_turn_counts,
    update_all_interruption_counts.
  cbn [new_podcast analytics word_counts turn_counts interruption_counts].
  rewrite !(zero_counts_lookup ps sp Hsp). simpl.
  split; [|split; [|done]].
  - case_bool_decide as Hz; [|done]. by rewrite (lines_of_zero _ _ Hz).
  - repeat case_bool_decide; try done; destruct_or?; try tauto. by f_equal.
Qed.

Lemma counters_add_up_witness :
  chars "Bob" ∈ names [persona "Alice"; persona "Bob"] ∧
  word_counts
    (analytics
       (update_all [(chars "Bob", chars "I agree fully");
                    (chars "Moderator", chars "Welcome");
                    (chars "Bob", chars "Indeed")]
          (new_podcast (chars "AI") [persona "Alice"; persona "Bob"] 2 [])))
    !! chars "Bob" = Some 4%nat.
Proof.
  assert (H : chars "Bob" ∈ names [persona "Alice"; persona "Bob"]).
  { apply elem_of_cons. right. apply elem_of_cons. by left. }
  split; [exact H|].
  exact (proj1 (counters_add_up (chars "AI") [persona "Alice"; persona "Bob"] 2 []
                  [(chars "Bob", chars "I agree fully");
                   (chars "Moderator", chars "Welcome");
                   (chars "Bob", chars "Indeed")] (chars "Bob") H)).
Defined.

(** ** Whom a response addresses *)







(** ** The list of clips *)





(** ** Requests for audio *)

Section Requests.

Variable path_exists : str → bool.
Variable home : str.

(** A voice sample is on record only for a persona of the roster whose
    path is given and exists. *)
Lemma _load_speaker_wavs_lookup (ps : list Persona) (sp w : str) :
  _load_speaker_wavs path_exists ps !! sp = Some w →
  ∃ p, p ∈ ps ∧ name p = sp ∧ speaker_wav_path p = w ∧ w ≠ [] ∧
       path_exists w = true.
Proof.
  unfold _load_speaker_wavs.
  induction ps as [|p ps IH] using rev_ind; [done|].
  rewrite foldl_app. simpl.
  destruct (negb (bool_decide (speaker_wav_path p = []))
            && path_exists (speaker_wav_path p)) eqn:Hok.
  - destruct (decide (name p = sp)) as [<-|Hne].
    + rewrite lookup_insert_eq. intros [= <-]. exists p.
      apply andb_true_iff in Hok as [Hne Hex].
      apply negb_true_iff, bool_decide_eq_false in Hne.
      rewrite elem_of_app, list_elem_of_singleton. auto.
    + rewrite lookup_insert_ne by done. intros (p' & Hin & H)%IH.
      exists p'. rewrite elem_of_app. auto.
  - intros (p' & Hin & H)%IH. exists p'. rewrite elem_of_app. auto.
Qed.

(** X13.  A line gets a request to the speech synthesiser only when its
    speaker is a persona of the roster with a voice sample that is given
    and exists, and the cleaned line is not empty; the request then
    carries the cleaned line, that voice sample and the output file in
    the temporary directory.  The lines of the Moderator and of the
    Director, who are no personas, get none. *)
Theorem audio_only_for_voiced_personas
    (ps : list Persona) (line_text sp output_filename : str) :
  (∀ cmd,
     _generate_audio_for_line home (_load_speaker_wavs path_exists ps)
       line_text sp output_filename = Some cmd →
     ∃ p, p ∈ ps ∧ name p = sp ∧ path_exists (speaker_wav_path p) = true ∧
          clean_text_for_tts line_text ≠ [] ∧
          cmd !! 2%nat = Some (clean_text_for_tts line_text) ∧
          cmd !! 6%nat = Some (speaker_wav_path p) ∧
          cmd !! 10%nat = Some (path_join TEMP_AUDIO_DIR output_filename)) ∧
  (sp ∉ names ps →
   _generate_audio_for_line home (_load_speaker_wavs path_exists ps)
     line_text sp output_filename = None) ∧
  (clean_text_for_tts line_text = [] →
   _generate_audio_for_line home (_load_speaker_wavs path_exists ps)
     line_text sp output_filename = None).
Proof.
  unfold _generate_audio_for_line. split; [|split].
  - intros cmd.
    destruct (_load_speaker_wavs path_exists ps !! sp) as [w|] eqn:Hw; [|done].
    apply _load_speaker_wavs_lookup in Hw as (p & Hin & Hn & Hp & Hne & Hex).
    rewrite bool_decide_eq_false_2 by done.
    case_bool_decide as Hc; [done|]. intros [= <-].
    exists p. rewrite Hp. repeat split; done.
  - intros Hsp.
    destruct (_load_speaker_wavs path_exists ps !! sp) as [w|] eqn:Hw; [|done].
    apply _load_speaker_wavs_lookup in Hw as (p & Hin & Hn & _).
    exfalso. apply Hsp. unfold names. apply list_elem_of_fmap. eauto.
  - intros ->.
    destruct (_load_speaker_wavs path_exists ps !! sp) as [w|]; [|done].
    by case_bool_decide.
Qed.

End Requests.

(** ** The text a model call returns *)





(** X15.  Whatever the reply, the text a model call returns neither
    begins nor ends with white space: stripping it again changes
    nothing.  This holds for the text of a reply as for the two error
    texts. *)
Theorem model_text_is_stripped (name : str) (r : reply) :
  strip (_call_ollama name r) = _call_ollama name r.
Proof.
  destruct r as [t|status|]; unfold _call_ollama.
  - apply strip_idemp.
  - change (chars "[Error: API Error " ++ decimal status ++ chars "]")
      with ("["%char :: (chars "Error: API Error " ++ decimal status ++ chars "]")).
    rewrite app_assoc. by apply strip_id.
  - vm_compute. reflexivity.
Qed.

(** ** The TTS script on a transcript of the engine *)

Section Script.

Variable generate_speech_xtts : str → str → str → bool.
Variable speaker_wavs : gmap str str.

Lemma entry_json_fields (e : Entry) :
  ∃ d, entry_json e = JDict d ∧
    dict_get d (chars "speaker") = Some (JStr (speaker e)) ∧
    dict_get d (chars "line") = Some (JStr (line e)).
Proof. eexists. split; [reflexivity|]. split; vm_compute; reflexivity. Qed.

(** The loop body on an entry of the engine: it raises nothing, and a
    file is added only for a line that is not the Moderator's, whose
    speaker has a voice sample, and whose cleaned text is not empty and
    was synthesised. *)
Lemma tts_line_entry (i : nat) (e : Entry) :
  ∃ f, tts_line generate_speech_xtts speaker_wavs i (entry_json e) = Value f ∧
    ∀ file, f = Some file →
      file = path_join TTS_TEMP_DIR (audio_filename i) ∧
      speaker e ≠ chars "Moderator" ∧
      clean_text (line e) ≠ [] ∧
      ∃ w, speaker_wavs !! speaker e = Some w ∧ w ≠ [] ∧
           generate_speech_xtts (clean_text (line e)) file w = true.
Proof.
  destruct (entry_json_fields e) as (d & -> & Hsp & Hln).
  unfold tts_line. rewrite Hsp, Hln. cbn [falsy truthy is_moderator].
  destruct (negb (negb (bool_decide (speaker e = [])))
            || negb (negb (bool_decide (line e = [])))
            || bool_decide (speaker e = chars "Moderator")) eqn:Hskip.
  - by eexists.
  - apply orb_false_iff in Hskip as [_ Hmod].
    apply bool_decide_eq_false in Hmod.
    destruct (speaker_wavs !! speaker e) as [w|] eqn:Hw; [|by eexists].
    case_bool_decide as Hwe; [by eexists|].
    destruct (negb (bool_decide (clean_text (line e) = []))
              && generate_speech_xtts (clean_text (line e))
                   (path_join TTS_TEMP_DIR (audio_filename i)) w) eqn:Hok;
      [|by eexists].
    apply andb_true_iff in Hok as [Hclean Hgen].
    apply negb_true_iff, bool_decide_eq_false in Hclean.
    eexists. split; [reflexivity|]. intros file [= <-].
    repeat split; try done. by exists w.
Qed.

Lemma tts_loop_entries (entries : list Entry) : ∀ i,
  ∃ idxs,
    tts_loop generate_speech_xtts speaker_wavs i (map entry_json entries)
      = Value (map (λ k, path_join TTS_TEMP_DIR (audio_filename k)) idxs) ∧
    StronglySorted lt idxs ∧
    ∀ k, k ∈ idxs →
      (i ≤ k)%nat ∧
      ∃ e, entries !! (k - i)%nat = Some e ∧
        speaker e ≠ chars "Moderator" ∧
        clean_text (line e) ≠ [] ∧
        ∃ w, speaker_wavs !! speaker e = Some w ∧ w ≠ [] ∧
             generate_speech_xtts (clean_text (line e))
               (path_join TTS_TEMP_DIR (audio_filename k)) w = true.
Proof.
  induction entries as [|e entries IH]; intros i.
  - exists []. split; [done|]. split; [constructor|].
    intros k Hk. by apply elem_of_nil in Hk.
  - destruct (tts_line_entry i e) as (f & Hf & Hfile).
    destruct (IH (S i)) as (idxs & Hloop & Hsorted & Hidx).
    cbn [map tts_loop]. rewrite Hf, Hloop. simpl.
    assert (Hlater : ∀ k, k ∈ idxs →
      (i ≤ k)%nat ∧
      ∃ e0, (e :: entries) !! (k - i)%nat = Some e0 ∧
        speaker e0 ≠ chars "Moderator" ∧
        clean_text (line e0) ≠ [] ∧
        ∃ w, speaker_wavs !! speaker e0 = Some w ∧ w ≠ [] ∧
             generate_speech_xtts (clean_text (line e0))
               (path_join TTS_TEMP_DIR (audio_filename k)) w = true).
    { intros k Hk. destruct (Hidx k Hk) as (Hle & e0 & Hlook & Hrest).
      split; [lia|]. exists e0. split; [|done].
      replace (k - i)%nat with (S (k - S i)) by lia. done. }
    destruct f as [file|].
    + destruct (Hfile file eq_refl) as (-> & Hmod & Hclean & Hw).
      exists (i :: idxs). split; [done|]. split.
      * constructor; [done|]. apply Forall_forall. intros k Hk.
        destruct (Hidx k Hk) as [Hle _]. lia.
      * intros k [->|Hk]%elem_of_cons; [|by apply Hlater].
        split; [done|]. exists e. rewrite Nat.sub_diag. done.
    + exists idxs. done.
Qed.

(** X16.  On a transcript as the engine dumps it, the loop of the TTS
    script raises nothing, and the audio files it collects are the files
    [line_k.wav] of entries [k] of the transcript in rising order of
    [k]: the index counts every entry, the skipped ones too.  A file is
    collected only for an entry that is not the Moderator's, whose
    speaker has a voice sample, and whose cleaned line is not empty and
    was synthesised. *)
Theorem tts_script_files_follow_the_transcript (entries : list Entry) :
  ∃ idxs,
    tts_audio_files generate_speech_xtts speaker_wavs
        (JList (map entry_json entries))
      = Value (map (λ k, path_join TTS_TEMP_DIR (audio_filename k)) idxs) ∧
    StronglySorted lt idxs ∧
    ∀ k, k ∈ idxs →
      ∃ e, entries !! k = Some e ∧
        speaker e ≠ chars "Moderator" ∧
        clean_text (line e) ≠ [] ∧
        ∃ w, speaker_wavs !! speaker e = Some w ∧ w ≠ [] ∧
             generate_speech_xtts (clean_text (line e))
               (path_join TTS_TEMP_DIR (audio_filename k)) w = true.
Proof.
  destruct (tts_loop_entries entries O) as (idxs & Hloop & Hsorted & Hidx).
  exists idxs. split; [exact Hloop|]. split; [done|].
  intros k Hk. destruct (Hidx k Hk) as (_ & e & Hlook & Hrest).
  exists e. by rewrite Nat.sub_0_r in Hlook.
Qed.

End Script.

(** On other inputs the loop of the script stops with an exception: an
    entry that is no object has no [get], and a number cannot be
    iterated. *)
Example tts_script_on_other_json :
  tts_audio_files (λ _ _ _, true) ∅ (JList [JStr (chars "Alice: hi")])
    = Raise AttributeError ∧
  tts_audio_files (λ _ _ _, true) ∅ (JInt 3) = Raise TypeError.
Proof. split; reflexivity. Qed.
